(** * Huffman coding in Python: a shallow embedding of [huffman.py]

    The development follows the source file top-down: the [Node] class, the
    part of the standard [heapq] module that [build_from_frequencies] calls,
    the [HuffmanTree] class with its three attributes and its methods, and
    then the properties of trees, code tables and the bit-at-a-time decoder.

    Conventions.
    - A Python [str] is a [string], its characters the [ascii] of the
      string; iterating over a [str] yields its one-character strings.
    - A Python [int] is a [Z].
    - The frequency dictionary is read in insertion order, so it is an
      association list; a well-formed dictionary has no repeated key.
    - The code table is only looked up and overwritten by key: a [gmap].
    - Every method takes the instance and returns the outcome of the call
      together with the instance as the call leaves it, also when the call
      raises.
    - The interpreter's recursion limit is not modelled. *)

From stdpp Require Import gmap strings list fin_maps.
From Stdlib Require Import ZArith Lia Ascii.

Open Scope Z_scope.

(** ** Exceptions *)

(** One constructor per [raise] site of [huffman.py], plus the built-in
    exceptions that the interpreter raises by itself in the code modelled
    here. *)
Inductive exn : Type :=
  | ValueError_empty_frequencies            (* huffman.py, line 39 *)
  | ValueError_empty_text                   (* huffman.py, line 71 *)
  | ValueError_unknown_char (char : string) (* huffman.py, line 109 *)
  | ValueError_bad_bit (bit : string)       (* huffman.py, line 141 *)
  | ValueError_not_initialized              (* huffman.py, line 144 *)
  | IndexError                              (* index out of range, pop from empty list *)
  | AttributeError                          (* attribute access on None *)
  | TypeError.                              (* str.join over an item that is None *)

Inductive outcome (A : Type) : Type :=
  | Ok (a : A)
  | Raise (e : exn).
Arguments Ok {A} a.
Arguments Raise {A} e.

Definition bind {A B : Type} (r : outcome A) (k : A → outcome B) : outcome B :=
  match r with
  | Ok a => k a
  | Raise e => Raise e
  end.

Notation "x ←? r ; k" := (bind r (λ x, k))
  (at level 20, r at level 100, k at level 200, right associativity,
   format "x  ←?  r ;  '/' k").
Notation "' p ←? r ; k" := (bind r (λ p, k))
  (at level 20, p pattern, r at level 100, k at level 200, right associativity,
   format "' p  ←?  r ;  '/' k").

(** The error kinds of the specification, and the kind of each exception. *)
Inductive error_kind : Type := InvalidInput | UnknownSymbol | UninitializedTree.

Definition kind_of (e : exn) : option error_kind :=
  match e with
  | ValueError_empty_frequencies => Some InvalidInput
  | ValueError_empty_text => Some InvalidInput
  | ValueError_unknown_char _ => Some UnknownSymbol
  | ValueError_bad_bit _ => Some InvalidInput
  | ValueError_not_initialized => Some UninitializedTree
  | IndexError => None
  | AttributeError => None
  | TypeError => None
  end.

(** ** class Node *)

(** The four attributes of a node: [freq], [char], [left], [right]. *)
#[local] Unset Elimination Schemes.
Inductive Node : Type :=
  | mkNode (freq : Z) (char : option string) (left right : option Node).
#[local] Set Elimination Schemes.

Definition Node_freq (n : Node) : Z := let 'mkNode f _ _ _ := n in f.
Definition Node_char (n : Node) : option string := let 'mkNode _ c _ _ := n in c.
Definition Node_left (n : Node) : option Node := let 'mkNode _ _ l _ := n in l.
Definition Node_right (n : Node) : option Node := let 'mkNode _ _ _ r := n in r.

(** [Node(freq, char)] and [Node(freq, left=l, right=r)], the two ways in
    which [huffman.py] calls the constructor. *)
Definition Node_leaf (freq : Z) (char : string) : Node :=
  mkNode freq (Some char) None None.
Definition Node_parent (freq : Z) (l r : Node) : Node :=
  mkNode freq None (Some l) (Some r).

Definition Node_is_leaf (n : Node) : bool :=
  match Node_left n, Node_right n with
  | None, None => true
  | _, _ => false
  end.

(** [Node.__lt__] *)
Definition Node_lt (self other : Node) : bool := Node_freq self <? Node_freq other.

(** ** The [heapq] functions used by the builder

    [huffman.py] imports [heapq] from the Python standard library.  The three
    functions it calls are transcribed here from the library's algorithm: a
    binary heap stored in a list, children of index [k] at [2*k+1] and
    [2*k+2], every comparison made with [<] on the elements, here
    [Node.__lt__].  An index out of range raises [IndexError].  The
    properties of trees and codes below use one fact about these functions:
    they return, and the list they leave holds the same items. *)
Module heapq.

(** [heap[i]] *)
Definition getitem (heap : list Node) (i : nat) : outcome Node :=
  match heap !! i with
  | Some x => Ok x
  | None => Raise IndexError
  end.

(** [heap[i] = x] *)
Definition setitem (heap : list Node) (i : nat) (x : Node) : outcome (list Node) :=
  if decide (i < length heap)%nat then Ok (<[i:=x]> heap) else Raise IndexError.

(** The [while pos > startpos] loop of [_siftdown]; it returns the list and
    the position at which the loop stops.  [pos] decreases at every round,
    so [pos] rounds are enough. *)
Fixpoint _siftdown_loop (fuel : nat) (heap : list Node) (startpos pos : nat)
    (newitem : Node) : outcome (list Node * nat) :=
  match fuel with
  | O => Ok (heap, pos)
  | S fuel =>
      if decide (startpos < pos)%nat then
        let parentpos := ((pos - 1) / 2)%nat in
        parent ←? getitem heap parentpos;
        if Node_lt newitem parent then
          heap ←? setitem heap pos parent;
          _siftdown_loop fuel heap startpos parentpos newitem
        else Ok (heap, pos)
      else Ok (heap, pos)
  end.

Definition _siftdown (heap : list Node) (startpos pos : nat) : outcome (list Node) :=
  newitem ←? getitem heap pos;
  '(heap, pos) ←? _siftdown_loop pos heap startpos pos newitem;
  setitem heap pos newitem.

(** The [while childpos < endpos] loop of [_siftup]. [pos] grows at every
    round and stays below [endpos], so [endpos] rounds are enough. *)
Fixpoint _siftup_loop (fuel : nat) (heap : list Node) (endpos pos childpos : nat)
    : outcome (list Node * nat) :=
  match fuel with
  | O => Ok (heap, pos)
  | S fuel =>
      if decide (childpos < endpos)%nat then
        let rightpos := (childpos + 1)%nat in
        childpos ←?
          (if decide (rightpos < endpos)%nat then
             c ←? getitem heap childpos;
             r ←? getitem heap rightpos;
             Ok (if negb (Node_lt c r) then rightpos else childpos)
           else Ok childpos);
        child ←? getitem heap childpos;
        heap ←? setitem heap pos child;
        _siftup_loop fuel heap endpos childpos (2 * childpos + 1)%nat
      else Ok (heap, pos)
  end.

Definition _siftup (heap : list Node) (pos : nat) : outcome (list Node) :=
  let endpos := length heap in
  let startpos := pos in
  newitem ←? getitem heap pos;
  '(heap, pos) ←? _siftup_loop endpos heap endpos pos (2 * pos + 1)%nat;
  heap ←? setitem heap pos newitem;
  _siftdown heap startpos pos.

(** [heappush(heap, item)] *)
Definition heappush (heap : list Node) (item : Node) : outcome (list Node) :=
  let heap := heap ++ [item] in
  _siftdown heap 0 (length heap - 1).

(** [heappop(heap)]: the popped item and the list as the call leaves it. *)
Definition heappop (heap : list Node) : outcome (Node * list Node) :=
  match last heap with
  | None => Raise IndexError
  | Some lastelt =>
      let heap := removelast heap in
      match heap with
      | returnitem :: _ =>
          heap ←? setitem heap 0 lastelt;
          heap ←? _siftup heap 0;
          Ok (returnitem, heap)
      | [] => Ok (lastelt, heap)
      end
  end.

(** The loop [for i in reversed(range(n//2)): _siftup(x, i)], written over
    the number of indices still to visit. *)
Fixpoint heapify_loop (i : nat) (x : list Node) : outcome (list Node) :=
  match i with
  | O => Ok x
  | S i => x ←? _siftup x i; heapify_loop i x
  end.

(** [heapify(x)] *)
Definition heapify (x : list Node) : outcome (list Node) :=
  let n := length x in
  heapify_loop (n / 2)%nat x.

End heapq.

(** ** class HuffmanTree *)

(** A key of the code table is what [traverse] writes: the [char] attribute
    of a node, a string or [None]. *)
Record HuffmanTree : Type := mkHuffmanTree {
  root : option Node;
  code_table : gmap (option string) string;
  current_node : option Node
}.

(** [HuffmanTree()] *)
Definition __init__ : HuffmanTree :=
  {| root := None; code_table := ∅; current_node := None |}.

(** The closure [traverse] of [_build_code_table], threading the table it
    assigns into.  [traverse] is the source's function on an optional node. *)
Fixpoint traverse_node (node : Node) (code : string)
    (table : gmap (option string) string) : gmap (option string) string :=
  match node with
  | mkNode _ char left_ right_ =>
      if Node_is_leaf node then
        <[char := if decide (code = "") then "0" else code]> table
      else
        let table :=
          match left_ with
          | None => table
          | Some l => traverse_node l (code +:+ "0") table
          end in
        match right_ with
        | None => table
        | Some r => traverse_node r (code +:+ "1") table
        end
  end.

Definition traverse (node : option Node) (code : string)
    (table : gmap (option string) string) : gmap (option string) string :=
  match node with
  | None => table
  | Some n => traverse_node n code table
  end.

(** [_build_code_table] (lines 79-93): the table is emptied, then filled by
    the traversal. *)
Definition _build_code_table (self : HuffmanTree) : HuffmanTree :=
  {| root := root self;
     code_table := traverse (root self) "" ∅;
     current_node := current_node self |}.

(** The [while len(priority_queue) > 1] loop.  Every round shortens the
    queue by one, so [len(priority_queue)] rounds are enough. *)
Fixpoint build_loop (fuel : nat) (priority_queue : list Node) : outcome (list Node) :=
  match fuel with
  | O => Ok priority_queue
  | S fuel =>
      if decide (1 < length priority_queue)%nat then
        '(left_, priority_queue) ←? heapq.heappop priority_queue;
        '(right_, priority_queue) ←? heapq.heappop priority_queue;
        let parent := Node_parent (Node_freq left_ + Node_freq right_) left_ right_ in
        priority_queue ←? heapq.heappush priority_queue parent;
        build_loop fuel priority_queue
      else Ok priority_queue
  end.

(** [build_from_frequencies] (lines 31-61).  The three cases are the empty
    dictionary, [len(freq_dict) == 1], and the general case; the attributes
    are assigned only after the loop, so an exception leaves [self] as it
    was. *)
Definition build_from_frequencies (self : HuffmanTree) (freq_dict : list (string * Z))
    : outcome unit * HuffmanTree :=
  match freq_dict with
  | [] => (Raise ValueError_empty_frequencies, self)
  | [(char, freq)] =>
      let node := Node_leaf freq char in
      (Ok tt, {| root := Some node;
                 code_table := {[ Some char := "0" ]};
                 current_node := Some node |})
  | _ =>
      let priority_queue := map (λ '(char, freq), Node_leaf freq char) freq_dict in
      match (priority_queue ←? heapq.heapify priority_queue;
             priority_queue ←? build_loop (length priority_queue) priority_queue;
             heapq.getitem priority_queue 0) with
      | Raise e => (Raise e, self)
      | Ok node =>
          (Ok tt, _build_code_table
                    {| root := Some node;
                       code_table := code_table self;
                       current_node := Some node |})
      end
  end.

(** [freq_dict.get(char, 0)] and [freq_dict[char] = v] on the ordered
    dictionary: a new key goes to the end, a known key keeps its place. *)
Fixpoint dict_get (d : list (string * Z)) (k : string) (default : Z) : Z :=
  match d with
  | [] => default
  | (k', v) :: d => if decide (k' = k) then v else dict_get d k default
  end.

Fixpoint dict_set (d : list (string * Z)) (k : string) (v : Z) : list (string * Z) :=
  match d with
  | [] => [(k, v)]
  | (k', v') :: d => if decide (k' = k) then (k, v) :: d else (k', v') :: dict_set d k v
  end.

(** The characters of a [str], each as a one-character [str]. *)
Fixpoint chars (text : string) : list string :=
  match text with
  | EmptyString => []
  | String c text => String c EmptyString :: chars text
  end.

(** The counting loop of [build_from_text] (lines 73-75). *)
Definition count_chars (text : string) : list (string * Z) :=
  foldl (λ freq_dict char, dict_set freq_dict char (dict_get freq_dict char 0 + 1)) [] (chars text).

(** [build_from_text] (lines 63-77) *)
Definition build_from_text (self : HuffmanTree) (text : string) : outcome unit * HuffmanTree :=
  if decide (text = "") then (Raise ValueError_empty_text, self)
  else build_from_frequencies self (count_chars text).

(** [encode] (lines 95-111).  It assigns to no attribute: only its outcome
    is returned. *)
Definition encode (self : HuffmanTree) (char : string) : outcome string :=
  match code_table self !! Some char with
  | None => Raise (ValueError_unknown_char char)
  | Some code => Ok code
  end.

(** [''.join(self.encode(char) for char in text)]: the generator is consumed
    from the left and the first exception ends the call. *)
Fixpoint encode_chars (self : HuffmanTree) (text : list string) : outcome string :=
  match text with
  | [] => Ok ""
  | char :: text =>
      code ←? encode self char;
      rest ←? encode_chars self text;
      Ok (code +:+ rest)
  end.

(** [encode_text] (lines 113-123) *)
Definition encode_text (self : HuffmanTree) (text : string) : outcome string :=
  encode_chars self (chars text).

(** [self.current_node = node] *)
Definition set_current_node (self : HuffmanTree) (node : option Node) : HuffmanTree :=
  {| root := root self; code_table := code_table self; current_node := node |}.

(** [decode] (lines 125-163), statement by statement.  [is_leaf()] called on
    [None] is the [AttributeError] of the interpreter; the cursor has then
    already been assigned. *)
Definition decode (self : HuffmanTree) (bit : string)
    : outcome (bool * option string) * HuffmanTree :=
  if decide (bit = "0" ∨ bit = "1") then
    match root self with
    | None => (Raise ValueError_not_initialized, self)
    | Some root_node =>
        let self :=
          match current_node self with
          | None => set_current_node self (root self)
          | Some _ => self
          end in
        if Node_is_leaf root_node then (Ok (true, Node_char root_node), self)
        else
          match current_node self with
          | None => (Raise AttributeError, self)
          | Some cur =>
              let self :=
                set_current_node self
                  (if decide (bit = "0") then Node_left cur else Node_right cur) in
              match current_node self with
              | None => (Raise AttributeError, self)
              | Some cur =>
                  if Node_is_leaf cur then
                    (Ok (true, Node_char cur), set_current_node self (root self))
                  else (Ok (false, None), self)
              end
          end
    end
  else (Raise (ValueError_bad_bit bit), self).

(** [reset_decoder] (lines 185-187) *)
Definition reset_decoder (self : HuffmanTree) : HuffmanTree :=
  set_current_node self (root self).

(** [''.join(result)] *)
Fixpoint join (items : list (option string)) : outcome string :=
  match items with
  | [] => Ok ""
  | Some s :: items => rest ←? join items; Ok (s +:+ rest)
  | None :: _ => Raise TypeError
  end.

(** The [for bit in bitstring] loop of [decode_text], with the list
    [result] it appends to. *)
Fixpoint decode_text_loop (self : HuffmanTree) (bits : list string)
    (result : list (option string)) : outcome (list (option string)) * HuffmanTree :=
  match bits with
  | [] => (Ok result, self)
  | bit :: bits =>
      match decode self bit with
      | (Raise e, self) => (Raise e, self)
      | (Ok (ok, char), self) =>
          decode_text_loop self bits (if ok then result ++ [char] else result)
      end
  end.

(** [decode_text] (lines 165-183) *)
Definition decode_text (self : HuffmanTree) (bitstring : string)
    : outcome string * HuffmanTree :=
  let self := reset_decoder self in
  match decode_text_loop self (chars bitstring) [] with
  | (Raise e, self) => (Raise e, self)
  | (Ok result, self) => (join result, self)
  end.

(** [get_code_table] (lines 189-196): [self.code_table.copy()].  As a value
    the copy is the table itself; the identity of the returned dictionary is
    the subject of [Module Objects]. *)
Definition get_code_table (self : HuffmanTree) : gmap (option string) string :=
  code_table self.

(* ================================================================== *)
(** * Vocabulary of the properties *)

(** The trees that the builder constructs: a leaf [Node(freq, char)], or a
    parent made at line 56 from two such trees. *)
Inductive huffman_tree : Node → Prop :=
  | tree_leaf freq char : huffman_tree (Node_leaf freq char)
  | tree_parent l r :
      huffman_tree l → huffman_tree r →
      huffman_tree (Node_parent (Node_freq l + Node_freq r) l r).

(** All nodes of a tree, the root first. *)
Fixpoint nodes (n : Node) : list Node :=
  match n with
  | mkNode _ _ left_ right_ =>
      n :: match left_ with Some l => nodes l | None => [] end
        ++ match right_ with Some r => nodes r | None => [] end
  end.

(** The [(char, freq)] pairs of the leaves, from left to right. *)
Fixpoint leaves (n : Node) : list (option string * Z) :=
  match n with
  | mkNode freq char left_ right_ =>
      if Node_is_leaf n then [(char, freq)]
      else match left_ with Some l => leaves l | None => [] end
        ++ match right_ with Some r => leaves r | None => [] end
  end.

(** [path_to n p k]: following the bits of [p] from [n], '0' to the left and
    '1' to the right, ends on a leaf whose [char] is [k]. *)
Inductive path_to : Node → string → option string → Prop :=
  | path_here n :
      Node_is_leaf n = true → path_to n "" (Node_char n)
  | path_left n l p k :
      Node_is_leaf n = false → Node_left n = Some l →
      path_to l p k → path_to n (String "0"%char p) k
  | path_right n r p k :
      Node_is_leaf n = false → Node_right n = Some r →
      path_to r p k → path_to n (String "1"%char p) k.

(** [m] is not a leaf only with two children whose frequencies add up to
    its own. *)
Definition sums_children (m : Node) : Prop :=
  Node_is_leaf m = false →
  ∃ l r, Node_left m = Some l ∧ Node_right m = Some r ∧
         Node_freq m = Node_freq l + Node_freq r.

(** The code that [traverse] stores for the accumulated [code]. *)
Definition stored_code (code : string) : string :=
  if decide (code = "") then "0" else code.

(** [c1] is a prefix of [c2]. *)
Definition is_prefix (c1 c2 : string) : Prop := ∃ rest, c2 = c1 +:+ rest.

(** The [str] that [''.join] makes of a list of symbols. *)
Definition concat_symbols (symbols : list string) : string :=
  foldr String.append "" symbols.

(** A [str] made of the characters '0' and '1' only. *)
Definition bitstring (s : string) : Prop :=
  Forall (λ bit, bit = "0" ∨ bit = "1") (chars s).

(** [sum(freq_dict.values())], also for the pairs that leaves carry. *)
Definition total {K : Type} (freq_dict : list (K * Z)) : Z :=
  foldr (λ item acc, item.2 + acc) 0 freq_dict.

(** The items of a frequency dictionary as leaves carry them. *)
Definition items (freq_dict : list (string * Z)) : list (option string * Z) :=
  (λ item, (Some item.1, item.2)) <$> freq_dict.

(** [self] holds the tree [node] built from [freq_dict] and the table
    traversed from it; the cursor is left free. *)
Record built_from (freq_dict : list (string * Z)) (self : HuffmanTree)
    (node : Node) : Prop := {
  built_root : root self = Some node;
  built_table : code_table self = traverse (Some node) "" ∅;
  built_tree : huffman_tree node;
  built_leaves : leaves node ≡ₚ items freq_dict;
  built_keys : NoDup freq_dict.*1
}.

(** The cursor of [self] is on a node of the tree [rt], and on a leaf only
    when [rt] is itself a leaf. *)
Definition cursor_inside (self : HuffmanTree) (rt : Node) : Prop :=
  ∃ cur, current_node self = Some cur ∧ cur ∈ nodes rt ∧
         (Node_is_leaf rt = false → Node_is_leaf cur = false).

(** A [str] of length one. *)
Definition one_char (s : string) : Prop := ∃ a, s = String a "".

(** The frequencies of the text "MISSISSIPPI", in order of first
    appearance, and a dictionary with a single entry. *)
Definition mississippi : list (string * Z) :=
  [("M", 1); ("I", 4); ("S", 4); ("P", 2)].

Definition only_A : list (string * Z) := [("A", 1)].

(** The instance built from [mississippi] after reading the bit '1': the
    cursor is inside the tree. *)
Definition mississippi_midway : HuffmanTree :=
  (decode (build_from_frequencies __init__ mississippi).2 "1").2.

(** ** Dictionaries as objects

    [get_code_table] returns [self.code_table.copy()].  To tell a copy from
    the dictionary itself, dictionaries here live in a store and are named by
    references, and the [code_table] attribute of an instance is such a
    reference. *)
Module Objects.

Record HuffmanTreeObj : Type := mkHuffmanTreeObj {
  obj_root : option Node;
  obj_code_table : positive;
  obj_current_node : option Node
}.

(** The instance as the methods of [HuffmanTree] read it. *)
Definition load (σ : gmap positive (gmap (option string) string))
    (self : HuffmanTreeObj) : option HuffmanTree :=
  table ← σ !! obj_code_table self;
  Some {| root := obj_root self;
          code_table := table;
          current_node := obj_current_node self |}.

(** [d.copy()]: a new dictionary object with the items of [d]. *)
Definition dict_copy (σ : gmap positive (gmap (option string) string))
    (d : positive) : option (positive * gmap positive (gmap (option string) string)) :=
  table ← σ !! d;
  let d' := fresh (dom σ) in
  Some (d', <[d' := table]> σ).

(** [return self.code_table.copy()] *)
Definition get_code_table (σ : gmap positive (gmap (option string) string))
    (self : HuffmanTreeObj) :=
  dict_copy σ (obj_code_table self).

(** For comparison, a getter with [return self.code_table]. *)
Definition get_code_table_alias (σ : gmap positive (gmap (option string) string))
    (self : HuffmanTreeObj) :=
  Some (obj_code_table self, σ).

(** Any mutation of the dictionary [d] by whoever holds it: [d[k] = v],
    [del d[k]], [d.clear()], [d.update(...)] all replace the items of [d]
    by some function of them. *)
Definition mutate (σ : gmap positive (gmap (option string) string)) (d : positive)
    (f : gmap (option string) string → gmap (option string) string) :=
  alter f d σ.

(** [self.encode(char)] on the instance in the store. *)
Definition encode (σ : gmap positive (gmap (option string) string))
    (self : HuffmanTreeObj) (char : string) : option (outcome string) :=
  t ← load σ self; Some (encode t char).

(** The instance built from [mississippi], its table stored at
    reference 1. *)
Definition example_store : gmap positive (gmap (option string) string) :=
  {[ 1%positive := code_table (build_from_frequencies __init__ mississippi).2 ]}.

Definition example_self : HuffmanTreeObj :=
  {| obj_root := root (build_from_frequencies __init__ mississippi).2;
     obj_code_table := 1%positive;
     obj_current_node := current_node (build_from_frequencies __init__ mississippi).2 |}.

(** The store after [example_self.get_code_table()]: the copy is the
    dictionary at reference 2. *)
Definition example_copied : gmap positive (gmap (option string) string) :=
  <[2%positive := code_table (build_from_frequencies __init__ mississippi).2]>
    example_store.

End Objects.

(** ** Feeding a decoder bit by bit

    The caller's loop of the specification: reset the decoder, call [decode]
    once per bit, and keep the symbol of every call that reports a complete
    symbol.  The first exception ends the loop. *)
Fixpoint feed (self : HuffmanTree) (bits : list string)
    : outcome (list (option string)) * HuffmanTree :=
  match bits with
  | [] => (Ok [], self)
  | bit :: bits =>
      match decode self bit with
      | (Raise e, self) => (Raise e, self)
      | (Ok (complete, symbol), self) =>
          let '(rest, self) := feed self bits in
          (collected ←? rest; Ok (if complete then symbol :: collected else collected),
           self)
      end
  end.

Definition incremental_decode (self : HuffmanTree) (B : string)
    : outcome (list (option string)) * HuffmanTree :=
  feed (reset_decoder self) (chars B).

(* ================================================================== *)
(** * The rest of the code *)

(** ** main.py: [build_huffman_tree] (lines 26-44)

    [HuffmanNode] has the attributes of [Node] ([char], [freq], [left],
    [right], the last two [None] after construction) and its [__lt__]
    compares [freq] as [Node.__lt__] does, so a [HuffmanNode] is a [Node]
    here.  The [while] loop is the loop of [build_from_frequencies]: two
    pops, a parent with the sum of the frequencies, first popped to the
    left, and a push.  Unlike the class, the function has no test for an
    empty dictionary, and for a single entry it returns a parent whose only
    child is the leaf. *)
Definition build_huffman_tree (freq_dict : list (string * Z)) : outcome Node :=
  let heap := map (λ '(ch, fr), Node_leaf fr ch) freq_dict in
  heap ←? heapq.heapify heap;
  if decide (length heap = 1%nat) then
    '(only, heap) ←? heapq.heappop heap;
    Ok (mkNode (Node_freq only) None (Some only) None)
  else
    heap ←? build_loop (length heap) heap;
    heapq.getitem heap 0.

(** ** Counting *)

(** How often the character [c] occurs among [l]. *)
Fixpoint occurrences (c : string) (l : list string) : Z :=
  match l with
  | [] => 0
  | x :: l => (if decide (x = c) then 1 else 0) + occurrences c l
  end.

(** [len(s)] *)
Definition len (s : string) : Z := Z.of_nat (String.length s).

(** ** Heap order *)

(** [c] is the index of a child of the index [i]. *)
Definition child_of (i c : nat) : Prop :=
  c = (2 * i + 1)%nat ∨ c = (2 * i + 2)%nat.

(** From the index [k] on, no item of [heap] has a greater frequency than
    its children; [heap_from 0] is the heap invariant of [heapq]. *)
Definition heap_from (k : nat) (heap : list Node) : Prop :=
  ∀ i c x y, (k ≤ i)%nat → child_of i c →
    heap !! i = Some x → heap !! c = Some y → Node_freq x ≤ Node_freq y.

(** The index [p] lies in the subtree of the index [s]. *)
Inductive below (s : nat) : nat → Prop :=
  | below_here : below s s
  | below_left p : below s p → below s (2 * p + 1)
  | below_right p : below s p → below s (2 * p + 2).

(** The state of [_siftdown]: [newitem] is to be placed at [pos]; apart from
    the link between [pos] and its parent the order holds from [startpos]
    on, whatever the list holds at [pos]. *)
Definition sift_inv (startpos pos : nat) (heap : list Node) (newitem : Node) : Prop :=
  (∀ i c x y, (startpos ≤ i)%nat → child_of i c → c ≠ pos → i ≠ pos →
     heap !! i = Some x → heap !! c = Some y → Node_freq x ≤ Node_freq y) ∧
  (∀ c y, child_of pos c → heap !! c = Some y → Node_freq newitem ≤ Node_freq y) ∧
  (∀ g d x y, (startpos ≤ g)%nat → child_of g pos → child_of pos d →
     heap !! g = Some x → heap !! d = Some y → Node_freq x ≤ Node_freq y).

(** Huffman's procedure on a collection of trees: while there is more than
    one, two trees of least frequency are taken out, the lesser first, and
    their parent, with the lesser as left child, is put in. *)
Inductive greedy : list Node → Node → Prop :=
  | greedy_done node : greedy [node] node
  | greedy_merge a b rest pq node :
      pq ≡ₚ a :: b :: rest →
      Forall (λ x, Node_freq a ≤ Node_freq x) (b :: rest) →
      Forall (λ x, Node_freq b ≤ Node_freq x) rest →
      greedy (Node_parent (Node_freq a + Node_freq b) a b :: rest) node →
      greedy pq node.

(** ** Sizes *)

(** The sum of [h] over the items of a list. *)
Definition sumZ {A : Type} (h : A → Z) (l : list A) : Z :=
  foldr (λ x acc, h x + acc) 0 l.

(** The sum of the frequencies of the nodes of a tree that are not leaves. *)
Definition internal_weight (n : Node) : Z :=
  sumZ (λ m, if Node_is_leaf m then 0 else Node_freq m) (nodes n).

(** The leaves of a tree with their depths, [d] being the depth of [n]. *)
Fixpoint leaf_depths (n : Node) (d : nat) : list (option string * Z * nat) :=
  match n with
  | mkNode freq char left_ right_ =>
      if Node_is_leaf n then [(char, freq, d)]
      else match left_ with Some l => leaf_depths l (S d) | None => [] end
        ++ match right_ with Some r => leaf_depths r (S d) | None => [] end
  end.

(** The number of bits that the table gives the key [k]. *)
Definition code_len (self : HuffmanTree) (k : option string) : Z :=
  match code_table self !! k with
  | Some code => len code
  | None => 0
  end.

(* ================================================================== *)
(** * Facts about the heap functions *)

Ltac ok_inv :=
  repeat match goal with
  | H : Ok _ = Ok _ |- _ => injection H as H; try subst
  | H : Raise _ = Ok _ |- _ => discriminate H
  | H : Ok _ = Raise _ |- _ => discriminate H
  | H : (_, _) = (_, _) |- _ => injection H as ? ?; try subst
  end.

Section list_array.
Context {A : Type}.
Implicit Types l : list A.

Lemma insert_move_front l j x y :
  l !! j = Some y → y :: <[j:=x]> l ≡ₚ x :: l.
Proof.
  revert j. induction l as [|a l IH]; intros [|j] Hj; simplify_eq/=.
  - apply perm_swap.
  - rewrite perm_swap, (IH j Hj). apply perm_swap.
Qed.

(** Writing [y], the item at [j], to [i] and then [x] to [j] leaves the
    same items as writing [x] to [i]: a move into the hole at [i]. *)
Lemma insert_move_hole l i j x y :
  (i < length l)%nat → l !! j = Some y →
  <[j:=x]> (<[i:=y]> l) ≡ₚ <[i:=x]> l.
Proof.
  revert i j. induction l as [|a l IH]; intros i j Hi Hj; [simpl in Hi; lia|].
  destruct i as [|i], j as [|j]; simplify_eq/=.
  - done.
  - by apply insert_move_front.
  - assert (<[i:=x]> l !! i = Some x) as Hx
      by (apply list_lookup_insert_eq; lia).
    pose proof (insert_move_front _ _ y _ Hx) as Hp.
    rewrite list_insert_insert_eq in Hp. done.
  - f_equiv. apply IH; [lia|done].
Qed.
End list_array.

Module heapq_facts.
Import heapq.

Lemma getitem_Ok heap i :
  (i < length heap)%nat → ∃ x, heap !! i = Some x ∧ getitem heap i = Ok x.
Proof.
  intros Hi. destruct (lookup_lt_is_Some_2 heap i Hi) as [x Hx].
  exists x. unfold getitem. by rewrite Hx.
Qed.

Lemma setitem_Ok heap i x :
  (i < length heap)%nat → setitem heap i x = Ok (<[i:=x]> heap).
Proof. intros Hi. unfold setitem. by rewrite decide_True. Qed.

Lemma parentpos_lt pos : (0 < pos)%nat → ((pos - 1) / 2 < pos)%nat.
Proof. intros. apply Nat.Div0.div_lt_upper_bound; lia. Qed.

(** The loop of [_siftdown] keeps the items of the list, up to the hole
    that [newitem] will fill. *)
Lemma _siftdown_loop_spec fuel heap startpos pos newitem :
  (pos < length heap)%nat →
  ∃ heap' pos',
    _siftdown_loop fuel heap startpos pos newitem = Ok (heap', pos') ∧
    length heap' = length heap ∧ (pos' ≤ pos)%nat ∧
    <[pos':=newitem]> heap' ≡ₚ <[pos:=newitem]> heap.
Proof.
  revert heap pos.
  induction fuel as [|fuel IH]; intros heap pos Hpos; cbn [_siftdown_loop].
  { by exists heap, pos. }
  destruct (decide (startpos < pos)%nat) as [Hlt|]; [|by exists heap, pos].
  assert ((pos - 1) / 2 < pos)%nat as Hpar by (apply parentpos_lt; lia).
  destruct (getitem_Ok heap ((pos - 1) / 2)) as (parent & Hparent & ->); [lia|].
  cbn [bind]. destruct (Node_lt newitem parent); [|by exists heap, pos].
  rewrite setitem_Ok by done. cbn [bind].
  destruct (IH (<[pos:=parent]> heap) ((pos - 1) / 2)%nat)
    as (heap' & pos' & -> & Hlen & Hle & Hperm).
  { rewrite length_insert. lia. }
  exists heap', pos'. split_and!; [done| |lia|].
  - by rewrite Hlen, length_insert.
  - rewrite Hperm. by apply insert_move_hole.
Qed.

Lemma _siftdown_spec heap startpos pos :
  (pos < length heap)%nat →
  ∃ heap', _siftdown heap startpos pos = Ok heap' ∧ heap' ≡ₚ heap.
Proof.
  intros Hpos. unfold _siftdown.
  destruct (getitem_Ok heap pos Hpos) as (newitem & Hnew & ->).
  cbn [bind].
  destruct (_siftdown_loop_spec pos heap startpos pos newitem Hpos)
    as (heap' & pos' & -> & Hlen & Hle & Hperm).
  cbn [bind].
  rewrite setitem_Ok by lia. eexists; split; [done|].
  rewrite Hperm. by rewrite list_insert_id.
Qed.

Lemma _siftup_loop_spec fuel heap pos childpos newitem :
  (pos < length heap)%nat →
  ∃ heap' pos',
    _siftup_loop fuel heap (length heap) pos childpos = Ok (heap', pos') ∧
    length heap' = length heap ∧ (pos' < length heap)%nat ∧
    <[pos':=newitem]> heap' ≡ₚ <[pos:=newitem]> heap.
Proof.
  revert heap pos childpos.
  induction fuel as [|fuel IH]; intros heap pos childpos Hpos; cbn [_siftup_loop].
  { by exists heap, pos. }
  destruct (decide (childpos < length heap)%nat) as [Hlt|]; [|by exists heap, pos].
  assert (∃ c, (c < length heap)%nat ∧
    (if decide (childpos + 1 < length heap)%nat
     then c ←? getitem heap childpos;
          r ←? getitem heap (childpos + 1);
          Ok (if negb (Node_lt c r) then (childpos + 1)%nat else childpos)
     else Ok childpos) = Ok c) as (c & Hc & ->).
  { destruct (decide (childpos + 1 < length heap)%nat) as [Hr|]; [|by exists childpos].
    destruct (getitem_Ok heap childpos Hlt) as (x & _ & ->).
    destruct (getitem_Ok heap (childpos + 1) Hr) as (y & _ & ->).
  cbn [bind].
    destruct (negb (Node_lt x y)); eauto. }
  cbn [bind]. destruct (getitem_Ok heap c Hc) as (child & Hchild & ->).
  cbn [bind].
  rewrite setitem_Ok by done. cbn [bind].
  destruct (IH (<[pos:=child]> heap) c (2 * c + 1)%nat)
    as (heap' & pos' & Heq & Hlen & Hle & Hperm).
  { rewrite length_insert. lia. }
  rewrite length_insert in Heq, Hlen, Hle.
  exists heap', pos'. split_and!; [done..|].
  rewrite Hperm. by apply insert_move_hole.
Qed.

Lemma _siftup_spec heap pos :
  (pos < length heap)%nat →
  ∃ heap', _siftup heap pos = Ok heap' ∧ heap' ≡ₚ heap.
Proof.
  intros Hpos. unfold _siftup.
  destruct (getitem_Ok heap pos Hpos) as (newitem & Hnew & ->).
  cbn [bind].
  destruct (_siftup_loop_spec (length heap) heap pos (2 * pos + 1) newitem Hpos)
    as (heap1 & pos1 & -> & Hlen & Hle & Hperm).
  cbn [bind].
  rewrite setitem_Ok by lia. cbn [bind].
  destruct (_siftdown_spec (<[pos1:=newitem]> heap1) pos pos1) as (heap' & -> & Hperm').
  { rewrite length_insert. lia. }
  exists heap'. split; [done|].
  rewrite Hperm', Hperm. by rewrite list_insert_id.
Qed.

Lemma heappush_spec heap item :
  ∃ heap', heappush heap item = Ok heap' ∧ heap' ≡ₚ item :: heap.
Proof.
  unfold heappush.
  destruct (_siftdown_spec (heap ++ [item]) 0 (length (heap ++ [item]) - 1))
    as (heap' & -> & Hperm).
  { rewrite length_app. simpl. lia. }
  exists heap'. split; [done|].
  rewrite Hperm. by rewrite Permutation_app_comm.
Qed.

Lemma heappop_spec heap :
  heap ≠ [] →
  ∃ item heap', heappop heap = Ok (item, heap') ∧ heap ≡ₚ item :: heap'.
Proof.
  intros Hne. unfold heappop.
  destruct heap as [|a heap _] using rev_ind; [done|].
  rewrite last_snoc, removelast_last.
  destruct heap as [|returnitem heap]; simpl.
  { by exists a, []. }
  destruct (_siftup_spec (a :: heap) 0) as (heap' & -> & Hperm); [simpl; lia|].
  simpl. exists returnitem, heap'. split; [done|].
  rewrite Hperm. simpl. f_equiv. symmetry. apply Permutation_cons_append.
Qed.

Lemma heapify_loop_spec i x :
  (i ≤ length x)%nat →
  ∃ x', heapify_loop i x = Ok x' ∧ x' ≡ₚ x.
Proof.
  revert x. induction i as [|i IH]; intros x Hi; simpl.
  { by exists x. }
  destruct (_siftup_spec x i) as (x1 & -> & Hperm1); [lia|]. cbn [bind].
  destruct (IH x1) as (x' & -> & Hperm).
  { rewrite Hperm1. lia. }
  exists x'. split; [done|]. by rewrite Hperm.
Qed.

Lemma heapify_spec x : ∃ x', heapify x = Ok x' ∧ x' ≡ₚ x.
Proof.
  apply heapify_loop_spec. apply Nat.Div0.div_le_upper_bound. lia.
Qed.


(** *** The rounds given to the loops are enough

    Each loop function, started with the number of rounds that its caller
    gives it, satisfies the equation of the [while] loop it stands for. *)

Lemma _siftdown_loop_fuel fuel fuel' heap startpos pos newitem :
  (pos ≤ fuel)%nat → (pos ≤ fuel')%nat →
  _siftdown_loop fuel heap startpos pos newitem =
  _siftdown_loop fuel' heap startpos pos newitem.
Proof.
  revert fuel' heap pos.
  induction fuel as [|fuel IH]; intros [|fuel'] heap pos H1 H2;
    cbn [_siftdown_loop]; [done| | |].
  - rewrite decide_False by lia. done.
  - rewrite decide_False by lia. done.
  - destruct (decide (startpos < pos)%nat) as [Hlt|]; [|done].
    assert ((pos - 1) / 2 < pos)%nat by (apply parentpos_lt; lia).
    destruct (getitem heap ((pos - 1) / 2)) as [parent|]; [|done]. cbn [bind].
    destruct (Node_lt newitem parent); [|done].
    destruct (setitem heap pos parent) as [heap'|]; [|done]. cbn [bind].
    apply IH; lia.
Qed.

Lemma _siftdown_loop_unfold heap startpos pos newitem :
  _siftdown_loop pos heap startpos pos newitem =
  if decide (startpos < pos)%nat then
    let parentpos := ((pos - 1) / 2)%nat in
    parent ←? getitem heap parentpos;
    if Node_lt newitem parent then
      heap ←? setitem heap pos parent;
      _siftdown_loop parentpos heap startpos parentpos newitem
    else Ok (heap, pos)
  else Ok (heap, pos).
Proof.
  destruct pos as [|pos]; cbn [_siftdown_loop].
  { by rewrite decide_False by lia. }
  destruct (decide (startpos < S pos)%nat) as [Hlt|]; [|done]. cbn zeta.
  assert ((S pos - 1) / 2 < S pos)%nat by (apply parentpos_lt; lia).
  destruct (getitem heap ((S pos - 1) / 2)) as [parent|]; [|done]. cbn [bind].
  destruct (Node_lt newitem parent); [|done].
  destruct (setitem heap (S pos) parent) as [heap'|]; [|done]. cbn [bind].
  apply _siftdown_loop_fuel; lia.
Qed.

Lemma _siftup_loop_fuel fuel fuel' heap endpos pos childpos :
  (endpos - pos ≤ fuel)%nat → (endpos - pos ≤ fuel')%nat → (pos < childpos)%nat →
  _siftup_loop fuel heap endpos pos childpos =
  _siftup_loop fuel' heap endpos pos childpos.
Proof.
  revert fuel' heap pos childpos.
  induction fuel as [|fuel IH]; intros [|fuel'] heap pos childpos H1 H2 H3;
    cbn [_siftup_loop]; [done| | |].
  - rewrite decide_False by lia. done.
  - rewrite decide_False by lia. done.
  - destruct (decide (childpos < endpos)%nat) as [Hlt|]; [|done].
    destruct (decide (childpos + 1 < endpos)%nat) as [Hr|].
    + destruct (getitem heap childpos) as [c|]; [|done]. cbn [bind].
      destruct (getitem heap (childpos + 1)) as [r|]; [|done]. cbn [bind].
      destruct (negb (Node_lt c r)).
      * destruct (getitem heap (childpos + 1)) as [child|]; [|done]. cbn [bind].
        destruct (setitem heap pos child) as [heap'|]; [|done]. cbn [bind].
        apply IH; lia.
      * destruct (getitem heap childpos) as [child|]; [|done]. cbn [bind].
        destruct (setitem heap pos child) as [heap'|]; [|done]. cbn [bind].
        apply IH; lia.
    + cbn [bind].
      destruct (getitem heap childpos) as [child|]; [|done]. cbn [bind].
      destruct (setitem heap pos child) as [heap'|]; [|done]. cbn [bind].
      apply IH; lia.
Qed.

Lemma _siftup_loop_unfold heap endpos pos childpos :
  (pos < childpos)%nat →
  _siftup_loop endpos heap endpos pos childpos =
  if decide (childpos < endpos)%nat then
    let rightpos := (childpos + 1)%nat in
    childpos ←?
      (if decide (rightpos < endpos)%nat then
         c ←? getitem heap childpos;
         r ←? getitem heap rightpos;
         Ok (if negb (Node_lt c r) then rightpos else childpos)
       else Ok childpos);
    child ←? getitem heap childpos;
    heap ←? setitem heap pos child;
    _siftup_loop endpos heap endpos childpos (2 * childpos + 1)%nat
  else Ok (heap, pos).
Proof.
  intros Hpos. destruct (decide (childpos < endpos)%nat) as [Hlt|Hge].
  2: { destruct endpos; cbn [_siftup_loop]; [done|]. by rewrite decide_False. }
  assert (∃ fuel, endpos = S fuel) as [fuel Hfuel] by (exists (endpos - 1)%nat; lia).
  rewrite Hfuel at 1. cbn [_siftup_loop]. rewrite decide_True by done. cbn zeta.
  destruct (decide (childpos + 1 < endpos)%nat) as [Hr|].
  + destruct (getitem heap childpos) as [c|]; [|done]. cbn [bind].
    destruct (getitem heap (childpos + 1)) as [r|]; [|done]. cbn [bind].
    destruct (negb (Node_lt c r)).
    * destruct (getitem heap (childpos + 1)) as [child|]; [|done]. cbn [bind].
      destruct (setitem heap pos child) as [heap'|]; [|done]. cbn [bind].
      apply _siftup_loop_fuel; lia.
    * destruct (getitem heap childpos) as [child|]; [|done]. cbn [bind].
      destruct (setitem heap pos child) as [heap'|]; [|done]. cbn [bind].
      apply _siftup_loop_fuel; lia.
  + cbn [bind].
    destruct (getitem heap childpos) as [child|]; [|done]. cbn [bind].
    destruct (setitem heap pos child) as [heap'|]; [|done]. cbn [bind].
    apply _siftup_loop_fuel; lia.
Qed.

End heapq_facts.

(* ================================================================== *)
(** * Facts about the builder *)

Lemma leaves_Node_leaf freq char : leaves (Node_leaf freq char) = [(Some char, freq)].
Proof. done. Qed.

Lemma leaves_Node_parent freq l r :
  leaves (Node_parent freq l r) = leaves l ++ leaves r.
Proof. done. Qed.

Lemma singleton_of_length (pq : list Node) :
  pq ≠ [] → ¬ (1 < length pq)%nat → ∃ node, pq = [node].
Proof.
  destruct pq as [|a [|b pq]]; simpl; intros ? ?; [done|by exists a|lia].
Qed.

(** The loop ends with a single tree that carries the leaves of the whole
    queue. *)
Lemma build_loop_spec fuel (pq : list Node) :
  Forall huffman_tree pq → (length pq ≤ S fuel)%nat → pq ≠ [] →
  ∃ node, build_loop fuel pq = Ok [node] ∧ huffman_tree node ∧
          leaves node ≡ₚ pq ≫= leaves.
Proof.
  revert pq. induction fuel as [|fuel IH]; intros pq Htree Hlen Hne;
    cbn [build_loop].
  { destruct (singleton_of_length pq) as [node ->]; [done|lia|].
    exists node. rewrite Forall_singleton in Htree. simpl.
    by rewrite app_nil_r. }
  destruct (decide (1 < length pq)%nat) as [Hlt|Hge]; last first.
  { destruct (singleton_of_length pq) as [node ->]; [done..|].
    exists node. rewrite Forall_singleton in Htree. simpl.
    by rewrite app_nil_r. }
  destruct (heapq_facts.heappop_spec pq Hne) as (a & pq1 & -> & Hp1).
  cbn [bind].
  assert (length pq = S (length pq1)) as Hl1 by (by rewrite Hp1).
  destruct (heapq_facts.heappop_spec pq1) as (b & pq2 & -> & Hp2).
  { intros ->. simpl in Hl1. lia. }
  cbn [bind].
  assert (length pq1 = S (length pq2)) as Hl2 by (by rewrite Hp2).
  destruct (heapq_facts.heappush_spec pq2
              (Node_parent (Node_freq a + Node_freq b) a b))
    as (pq3 & -> & Hp3).
  cbn [bind].
  rewrite Hp1, Hp2 in Htree.
  apply Forall_cons in Htree as [Ha Htree].
  apply Forall_cons in Htree as [Hb Htree].
  destruct (IH pq3) as (node & -> & Hnode & Hleaves).
  - rewrite Hp3. apply Forall_cons. split; [by constructor|done].
  - rewrite Hp3. simpl. lia.
  - intros ->. by apply Permutation_nil_cons in Hp3.
  - exists node. split_and!; [done..|].
    rewrite Hleaves, Hp3, Hp1, Hp2. simpl.
    by rewrite <-(assoc_L (++)).
Qed.

(** The rounds given to [build_loop] are enough: started with the length of
    the queue it satisfies the equation of the [while] loop. *)
Lemma build_loop_fuel fuel fuel' (pq : list Node) :
  (length pq ≤ S fuel)%nat → (length pq ≤ S fuel')%nat →
  build_loop fuel pq = build_loop fuel' pq.
Proof.
  revert fuel' pq.
  induction fuel as [|fuel IH]; intros [|fuel'] pq H1 H2; cbn [build_loop]; [done| | |].
  - by rewrite decide_False by lia.
  - by rewrite decide_False by lia.
  - destruct (decide (1 < length pq)%nat) as [Hlt|]; [|done].
    destruct (heapq_facts.heappop_spec pq) as (a & pq1 & -> & Hp1).
    { intros ->. simpl in Hlt. lia. }
    cbn [bind]. apply Permutation_length in Hp1. simpl in Hp1.
    destruct (heapq_facts.heappop_spec pq1) as (b & pq2 & -> & Hp2).
    { intros ->. simpl in Hp1. lia. }
    cbn [bind]. apply Permutation_length in Hp2. simpl in Hp2.
    destruct (heapq_facts.heappush_spec pq2
                (Node_parent (Node_freq a + Node_freq b) a b)) as (pq3 & -> & Hp3).
    cbn [bind]. apply Permutation_length in Hp3. simpl in Hp3.
    apply IH; lia.
Qed.

Lemma build_loop_unfold (pq : list Node) :
  build_loop (length pq) pq =
  if decide (1 < length pq)%nat then
    '(left_, pq) ←? heapq.heappop pq;
    '(right_, pq) ←? heapq.heappop pq;
    let parent := Node_parent (Node_freq left_ + Node_freq right_) left_ right_ in
    pq ←? heapq.heappush pq parent;
    build_loop (length pq) pq
  else Ok pq.
Proof.
  destruct (decide (1 < length pq)%nat) as [Hlt|Hge].
  2: { destruct (length pq) as [|n] eqn:Hl; cbn [build_loop]; [done|].
       rewrite decide_False; [done|]. by rewrite Hl. }
  assert (∃ fuel, length pq = S fuel) as [fuel Hfuel]
    by (exists (length pq - 1)%nat; lia).
  transitivity (build_loop (S fuel) pq); [by rewrite Hfuel|].
  cbn [build_loop]. rewrite decide_True by done.
  destruct (heapq_facts.heappop_spec pq) as (a & pq1 & -> & Hp1).
  { intros ->. simpl in Hlt. lia. }
  cbn [bind]. apply Permutation_length in Hp1. simpl in Hp1.
  destruct (heapq_facts.heappop_spec pq1) as (b & pq2 & -> & Hp2).
  { intros ->. simpl in Hp1. lia. }
  cbn [bind]. apply Permutation_length in Hp2. simpl in Hp2.
  destruct (heapq_facts.heappush_spec pq2
              (Node_parent (Node_freq a + Node_freq b) a b)) as (pq3 & -> & Hp3).
  cbn [bind]. apply Permutation_length in Hp3. simpl in Hp3.
  apply build_loop_fuel; lia.
Qed.

Lemma leaves_of_items (freq_dict : list (string * Z)) :
  map (λ '(char, freq), Node_leaf freq char) freq_dict ≫= leaves = items freq_dict.
Proof.
  induction freq_dict as [|[char freq] fd IH]; [done|].
  simpl. f_equal. apply IH.
Qed.

Lemma huffman_tree_of_items (freq_dict : list (string * Z)) :
  Forall huffman_tree (map (λ '(char, freq), Node_leaf freq char) freq_dict).
Proof.
  induction freq_dict as [|[char freq] fd IH]; constructor; [constructor|done].
Qed.

(** On a non-empty dictionary the builder returns, and leaves the instance
    with a tree whose leaves are the items of the dictionary, the table
    traversed from that tree, and the cursor on the root. *)
Lemma build_from_frequencies_spec self (freq_dict : list (string * Z)) :
  freq_dict ≠ [] →
  ∃ node,
    build_from_frequencies self freq_dict =
      (Ok tt, {| root := Some node;
                 code_table := traverse (Some node) "" ∅;
                 current_node := Some node |}) ∧
    huffman_tree node ∧ leaves node ≡ₚ items freq_dict.
Proof.
  intros Hne. destruct freq_dict as [|[char freq] [|item fd]]; [done| |].
  { exists (Node_leaf freq char). split_and!; [done|constructor|done]. }
  set (freq_dict := (char, freq) :: item :: fd).
  unfold build_from_frequencies. fold freq_dict.
  set (pq := map _ freq_dict).
  destruct (heapq_facts.heapify_spec pq) as (pq1 & -> & Hp1). cbn [bind].
  destruct (build_loop_spec (length pq1) pq1) as (node & -> & Hnode & Hleaves).
  - rewrite Hp1. apply huffman_tree_of_items.
  - lia.
  - intros ->. by apply Permutation_length in Hp1.
  - cbn [bind heapq.getitem lookup list_lookup].
    exists node. split_and!; [done..|].
    rewrite Hleaves, Hp1. unfold pq. by rewrite leaves_of_items.
Qed.

(* ================================================================== *)
(** * Facts about trees *)

Lemma total_app {K} (l k : list (K * Z)) : total (l ++ k) = total l + total k.
Proof. induction l as [|[? ?] l IH]; simpl; [done|]. rewrite IH. lia. Qed.

Lemma total_perm {K} (l k : list (K * Z)) : l ≡ₚ k → total l = total k.
Proof.
  induction 1 as [|[? ?] ? ? ? IH|[? ?] [? ?] ?|]; simpl; [done| | |congruence].
  - by rewrite IH.
  - lia.
Qed.

Lemma total_items freq_dict : total (items freq_dict) = total freq_dict.
Proof. induction freq_dict as [|[? ?] ? IH]; simpl; [done|]. by rewrite IH. Qed.

(** The frequency of a built tree is the sum over its leaves. *)
Lemma huffman_tree_freq n : huffman_tree n → Node_freq n = total (leaves n).
Proof.
  induction 1 as [freq char|l r _ IHl _ IHr].
  - simpl. lia.
  - rewrite leaves_Node_parent, total_app. simpl. by rewrite IHl, IHr.
Qed.

Lemma huffman_tree_nodes n : huffman_tree n → Forall sums_children (nodes n).
Proof.
  induction 1 as [freq char|l r _ IHl _ IHr].
  - apply Forall_singleton. by intros ?.
  - change (nodes (Node_parent (Node_freq l + Node_freq r) l r))
      with (Node_parent (Node_freq l + Node_freq r) l r :: nodes l ++ nodes r).
    apply Forall_cons. split; [|by apply Forall_app].
    intros _. by exists l, r.
Qed.

Lemma huffman_tree_leaf_or_parent n :
  huffman_tree n →
  (∃ freq char, n = Node_leaf freq char) ∨
  (∃ l r, n = Node_parent (Node_freq l + Node_freq r) l r ∧
          huffman_tree l ∧ huffman_tree r).
Proof. destruct 1; [left|right]; eauto. Qed.

(** ** Strings *)

Lemma append_nil_l (s : string) : "" +:+ s = s.
Proof. done. Qed.

Lemma append_cons a (s1 s2 : string) : String a s1 +:+ s2 = String a (s1 +:+ s2).
Proof. done. Qed.

Lemma append_nil_r (s : string) : s +:+ "" = s.
Proof. induction s as [|a s IH]; [done|]. by rewrite append_cons, IH. Qed.

Lemma append_assoc (s1 s2 s3 : string) : (s1 +:+ s2) +:+ s3 = s1 +:+ (s2 +:+ s3).
Proof. induction s1 as [|a s1 IH]; [done|]. by rewrite !append_cons, IH. Qed.

Lemma append_eq_nil (s1 s2 : string) : s1 +:+ s2 = "" → s1 = "" ∧ s2 = "".
Proof. destruct s1; [done|]. rewrite append_cons. discriminate. Qed.

Lemma chars_app (s1 s2 : string) : chars (s1 +:+ s2) = chars s1 ++ chars s2.
Proof.
  induction s1 as [|a s1 IH]; [done|]. rewrite append_cons. simpl. by rewrite IH.
Qed.

Lemma join_chars (text : string) : join (Some <$> chars text) = Ok text.
Proof.
  induction text as [|a s IH]; [done|].
  cbn [chars fmap list_fmap join]. fold (Some <$> chars s). by rewrite IH.
Qed.

(** ** Paths *)

Lemma path_to_leaf_inv freq char p k :
  path_to (Node_leaf freq char) p k → p = "" ∧ k = Some char.
Proof. inversion 1; simplify_eq/=; done. Qed.

Lemma path_to_parent_inv freq l r p k :
  path_to (Node_parent freq l r) p k →
  (∃ p', p = String "0"%char p' ∧ path_to l p' k) ∨
  (∃ p', p = String "1"%char p' ∧ path_to r p' k).
Proof. inversion 1; simplify_eq/=; [left|right]; eauto. Qed.

Lemma path_to_is_leaf n p k :
  path_to n p k → Node_is_leaf n = true → p = "" ∧ k = Node_char n.
Proof. destruct 1; intros ?; [done|congruence..]. Qed.

Lemma path_to_bitstring n p k : path_to n p k → bitstring p.
Proof.
  induction 1; [constructor|constructor; [by left|done]|constructor; [by right|done]].
Qed.

(** The leaves of a built tree are the ends of its paths. *)
Lemma path_to_leaves n p k : huffman_tree n → path_to n p k → k ∈ (leaves n).*1.
Proof.
  intros Hn. revert p. induction Hn as [freq char|l r _ IHl _ IHr]; intros p Hp.
  - apply path_to_leaf_inv in Hp as [_ ->]. simpl. set_solver.
  - rewrite leaves_Node_parent, fmap_app.
    apply path_to_parent_inv in Hp as [(p' & _ & Hp)|(p' & _ & Hp)];
      apply elem_of_app; [left|right]; eauto.
Qed.

Lemma leaves_path_to n k : huffman_tree n → k ∈ (leaves n).*1 → ∃ p, path_to n p k.
Proof.
  induction 1 as [freq char|l r _ IHl _ IHr]; intros Hk.
  - simpl in Hk. apply list_elem_of_singleton in Hk as ->.
    exists "". by apply (path_here (Node_leaf freq char)).
  - rewrite leaves_Node_parent, fmap_app in Hk.
    apply elem_of_app in Hk as [Hk|Hk].
    + destruct (IHl Hk) as [p Hp]. exists (String "0"%char p). by eapply path_left.
    + destruct (IHr Hk) as [p Hp]. exists (String "1"%char p). by eapply path_right.
Qed.

(** Two paths of one tree, one a prefix of the other, are the same path to
    the same leaf. *)
Lemma path_to_prefix n p1 p2 k1 k2 :
  path_to n p1 k1 → path_to n p2 k2 → is_prefix p1 p2 → p1 = p2 ∧ k1 = k2.
Proof.
  intros H1. revert p2. induction H1 as [n Hn|n l p k Hn Hl H1 IH|n r p k Hn Hr H1 IH];
    intros p2 H2 [rest Hrest].
  - by destruct (path_to_is_leaf _ _ _ H2 Hn) as [-> ->].
  - destruct H2 as [n Hn'|n l' p2 k2 _ Hl' H2|n r' p2 k2 _ Hr' H2];
      rewrite append_cons in Hrest; simplify_eq/=.
    destruct (IH _ H2) as [Heq ->]; [by exists rest|]. by rewrite <-Heq.
  - destruct H2 as [n Hn'|n l' p2 k2 _ Hl' H2|n r' p2 k2 _ Hr' H2];
      rewrite append_cons in Hrest; simplify_eq/=.
    destruct (IH _ H2) as [Heq ->]; [by exists rest|]. by rewrite <-Heq.
Qed.

(** ** The code table *)

Lemma traverse_node_leaf freq char code table :
  traverse_node (Node_leaf freq char) code table =
  <[Some char := stored_code code]> table.
Proof. done. Qed.

Lemma traverse_node_parent freq l r code table :
  traverse_node (Node_parent freq l r) code table =
  traverse_node r (code +:+ "1") (traverse_node l (code +:+ "0") table).
Proof. done. Qed.

(** What [traverse] leaves in the table: the code of every leaf of the tree,
    read along the path to it, and the entries that were there for all other
    keys. *)
Lemma traverse_node_lookup n :
  huffman_tree n → NoDup (leaves n).*1 →
  ∀ code (table : gmap (option string) string) k c,
    traverse_node n code table !! k = Some c ↔
    (∃ p, path_to n p k ∧ c = stored_code (code +:+ p)) ∨
    (table !! k = Some c ∧ k ∉ (leaves n).*1).
Proof.
  induction 1 as [freq char|l r Hl IHl Hr IHr]; intros Hnd code table k c.
  - rewrite traverse_node_leaf, lookup_insert_Some. simpl. split.
    + intros [[<- <-]|[Hne Hk]].
      * left. exists "". rewrite append_nil_r.
        split; [apply (path_here (Node_leaf freq char))|]; done.
      * right. split; [done|]. by intros ->%list_elem_of_singleton.
    + intros [(p & Hp & ->)|[Hk Hne]].
      * apply path_to_leaf_inv in Hp as [-> ->]. rewrite append_nil_r. by left.
      * right. split; [|done]. intros <-. apply Hne. by apply list_elem_of_singleton.
  - rewrite leaves_Node_parent, fmap_app in Hnd.
    apply NoDup_app in Hnd as (Hndl & Hdisj & Hndr).
    rewrite traverse_node_parent, (IHr Hndr), (IHl Hndl).
    rewrite leaves_Node_parent, fmap_app. split.
    + intros [(p & Hp & ->)|[[(p & Hp & ->)|[Hk Hnl]] Hnr]].
      * left. exists (String "1"%char p). rewrite append_assoc.
        split; [by eapply path_right|done].
      * left. exists (String "0"%char p). rewrite append_assoc.
        split; [by eapply path_left|done].
      * right. split; [done|]. rewrite elem_of_app. tauto.
    + intros [(p & Hp & ->)|[Hk Hn]].
      * apply path_to_parent_inv in Hp as [(p' & -> & Hp)|(p' & -> & Hp)].
        -- right. split; [|eapply Hdisj, path_to_leaves; done].
           left. exists p'. by rewrite append_assoc.
        -- left. exists p'. by rewrite append_assoc.
      * rewrite elem_of_app in Hn. right. split; [|tauto]. right. split; [done|tauto].
Qed.

(** The table of a built instance: the keys are the leaves, the codes their
    paths from the root. *)
Lemma code_table_lookup node k c :
  huffman_tree node → NoDup (leaves node).*1 →
  traverse (Some node) "" ∅ !! k = Some c ↔ ∃ p, path_to node p k ∧ c = stored_code p.
Proof.
  intros Hnode Hnd. simpl. rewrite (traverse_node_lookup node Hnode Hnd).
  split.
  - intros [(p & Hp & ->)|[Hk _]]; [by exists p|]. by rewrite lookup_empty in Hk.
  - intros (p & Hp & ->). left. by exists p.
Qed.

Lemma items_keys freq_dict : (items freq_dict).*1 = Some <$> freq_dict.*1.
Proof. unfold items. rewrite <-!list_fmap_compose. done. Qed.

Lemma leaves_NoDup node (freq_dict : list (string * Z)) :
  leaves node ≡ₚ items freq_dict → NoDup freq_dict.*1 → NoDup (leaves node).*1.
Proof.
  intros Hp Hnd. rewrite Hp, items_keys. by apply (NoDup_fmap_2 _).
Qed.

Lemma leaves_keys node (freq_dict : list (string * Z)) k :
  leaves node ≡ₚ items freq_dict →
  k ∈ (leaves node).*1 ↔ ∃ char, k = Some char ∧ char ∈ freq_dict.*1.
Proof.
  intros Hp. rewrite Hp, items_keys, list_elem_of_fmap. naive_solver.
Qed.

(* ================================================================== *)
(** * Facts about the decoder *)

Lemma set_current_node_id self node :
  current_node self = node → set_current_node self node = self.
Proof. destruct self. simpl. by intros ->. Qed.

Lemma decode_bad_bit self bit :
  bit ≠ "0" → bit ≠ "1" → decode self bit = (Raise (ValueError_bad_bit bit), self).
Proof. intros H0 H1. unfold decode. rewrite decide_False; [done|tauto]. Qed.

(** A step on a tree whose root has children. *)
Lemma decode_descend self rt cur bit next :
  root self = Some rt → Node_is_leaf rt = false →
  current_node self = Some cur →
  (bit = "0" ∧ Node_left cur = Some next ∨ bit = "1" ∧ Node_right cur = Some next) →
  decode self bit =
    if Node_is_leaf next
    then (Ok (true, Node_char next), set_current_node self (Some rt))
    else (Ok (false, None), set_current_node self (Some next)).
Proof.
  intros Hrt Hleaf Hcur Hbit. unfold decode.
  rewrite decide_True by tauto. rewrite Hrt, Hcur, Hleaf. cbn [current_node].
  rewrite Hcur. destruct Hbit as [[-> Hn]|[-> Hn]]; cbn [set_current_node current_node].
  - rewrite decide_True by done. rewrite Hn.
    destruct (Node_is_leaf next); [|done].
    unfold set_current_node; cbn [root code_table]. by rewrite Hrt.
  - rewrite decide_False by done. rewrite Hn.
    destruct (Node_is_leaf next); [|done].
    unfold set_current_node; cbn [root code_table]. by rewrite Hrt.
Qed.

(** A step on a tree that is a single leaf. *)
Lemma decode_single self rt bit :
  root self = Some rt → Node_is_leaf rt = true → is_Some (current_node self) →
  bit = "0" ∨ bit = "1" →
  decode self bit = (Ok (true, Node_char rt), self).
Proof.
  intros Hrt Hleaf [cur Hcur] Hbit. unfold decode.
  rewrite decide_True by done. by rewrite Hrt, Hcur, Hleaf.
Qed.

(** Reading a whole path from the cursor yields the symbol at its end and
    puts the cursor back on the root. *)
Lemma decode_text_loop_path rt n p k :
  path_to n p k → Node_is_leaf n = false → Node_is_leaf rt = false →
  ∀ self result rest,
    root self = Some rt → current_node self = Some n →
    decode_text_loop self (chars p ++ rest) result =
    decode_text_loop (set_current_node self (Some rt)) rest (result ++ [k]).
Proof.
  intros Hp. induction Hp as [n Hn|n l p k _ Hl Hp IH|n r p k _ Hr Hp IH];
    intros Hleaf Hrt self result rest Hroot Hcur; [congruence| |].
  - cbn [chars app decode_text_loop].
    rewrite (decode_descend self rt n "0" l) by tauto.
    destruct (Node_is_leaf l) eqn:Hll.
    + by destruct (path_to_is_leaf _ _ _ Hp Hll) as [-> ->].
    + by rewrite IH.
  - cbn [chars app decode_text_loop].
    rewrite (decode_descend self rt n "1" r) by tauto.
    destruct (Node_is_leaf r) eqn:Hrl.
    + by destruct (path_to_is_leaf _ _ _ Hp Hrl) as [-> ->].
    + by rewrite IH.
Qed.

(** Reading a path only in part yields nothing and leaves the cursor inside
    the tree. *)
Lemma decode_text_loop_partial rt p q :
  q ≠ "" → Node_is_leaf rt = false →
  ∀ n k self result,
    path_to n (p +:+ q) k →
    root self = Some rt → current_node self = Some n →
    ∃ n', decode_text_loop self (chars p) result =
            (Ok result, set_current_node self (Some n')).
Proof.
  intros Hq Hrt. induction p as [|a p IH]; intros n k self result Hp Hroot Hcur.
  { exists n. simpl. by rewrite set_current_node_id. }
  rewrite append_cons in Hp.
  assert (∀ m, path_to m (p +:+ q) k → Node_is_leaf m = false) as Hinner.
  { intros m Hm. destruct (Node_is_leaf m) eqn:Hml; [|done].
    destruct (path_to_is_leaf _ _ _ Hm Hml) as [[_ ->]%append_eq_nil _]. done. }
  inversion Hp as [|? l ? ? _ Hl Hp'|? r ? ? _ Hr Hp']; simplify_eq/=.
  - rewrite (decode_descend self rt n "0" l) by tauto.
    rewrite (Hinner l Hp').
    destruct (IH l k (set_current_node self (Some l)) result) as [n' Hn']; [done..|].
    exists n'. by rewrite Hn'.
  - rewrite (decode_descend self rt n "1" r) by tauto.
    rewrite (Hinner r Hp').
    destruct (IH r k (set_current_node self (Some r)) result) as [n' Hn']; [done..|].
    exists n'. by rewrite Hn'.
Qed.

(* ================================================================== *)
(** * Built instances *)

Lemma build_from_frequencies_built self (freq_dict : list (string * Z)) :
  freq_dict ≠ [] → NoDup freq_dict.*1 →
  ∃ self' node,
    build_from_frequencies self freq_dict = (Ok tt, self') ∧
    built_from freq_dict self' node ∧ current_node self' = Some node.
Proof.
  intros Hne Hnd.
  destruct (build_from_frequencies_spec self freq_dict Hne)
    as (node & Hbuild & Htree & Hleaves).
  eexists _, node. split; [exact Hbuild|]. by split.
Qed.

Section built.
Context {freq_dict : list (string * Z)} {self : HuffmanTree} {node : Node}.
Context (Hbuilt : built_from freq_dict self node).

Lemma built_lookup k c :
  code_table self !! k = Some c ↔ ∃ p, path_to node p k ∧ c = stored_code p.
Proof.
  rewrite (built_table _ _ _ Hbuilt).
  apply code_table_lookup; [apply Hbuilt|].
  eapply leaves_NoDup; apply Hbuilt.
Qed.

Lemma built_key k c :
  code_table self !! k = Some c → ∃ char, k = Some char ∧ char ∈ freq_dict.*1.
Proof.
  intros (p & Hp & _)%built_lookup.
  eapply leaves_keys; [apply Hbuilt|].
  eapply path_to_leaves; [apply Hbuilt|done].
Qed.

Lemma built_encode char :
  char ∈ freq_dict.*1 → ∃ code, encode self char = Ok code.
Proof.
  intros Hchar.
  destruct (leaves_path_to node (Some char)) as [p Hp]; [apply Hbuilt| |].
  { eapply leaves_keys; [apply Hbuilt|]. by exists char. }
  exists (stored_code p). unfold encode.
  assert (code_table self !! Some char = Some (stored_code p)) as ->; [|done].
  apply built_lookup. by exists p.
Qed.

Lemma built_bitstring k c : code_table self !! k = Some c → bitstring c.
Proof.
  intros (p & Hp & ->)%built_lookup. apply path_to_bitstring in Hp.
  destruct p; [|done]. repeat constructor.
Qed.

Lemma built_nonempty k c : code_table self !! k = Some c → c ≠ "".
Proof. intros (p & Hp & ->)%built_lookup. by destruct p. Qed.

(** With two symbols or more the root has children. *)
Lemma built_root_parent :
  (2 ≤ length freq_dict)%nat → Node_is_leaf node = false.
Proof.
  intros Hlen. pose proof (built_leaves _ _ _ Hbuilt) as Hp.
  apply Permutation_length in Hp. unfold items in Hp. rewrite length_fmap in Hp.
  destruct (huffman_tree_leaf_or_parent node) as [(f & c & ->)|(l & r & -> & _)];
    [apply Hbuilt| |done].
  simpl in Hp. lia.
Qed.

(** Reading the code of a symbol from the root yields the symbol and
    leaves the cursor on the root. *)
Lemma built_decode_code k c result rest :
  current_node self = Some node → code_table self !! k = Some c →
  decode_text_loop self (chars c ++ rest) result =
  decode_text_loop self rest (result ++ [k]).
Proof.
  intros Hcur (p & Hp & ->)%built_lookup.
  pose proof (built_root _ _ _ Hbuilt) as Hroot.
  destruct (huffman_tree_leaf_or_parent node) as [(f & ch & ->)|(l & r & -> & _)];
    [apply Hbuilt| |].
  - apply path_to_leaf_inv in Hp as [-> ->].
    cbn [stored_code decide_rel chars app decode_text_loop]. simpl chars.
    cbn [app decode_text_loop].
    rewrite (decode_single self (Node_leaf f ch) "0"); [done..| |by left].
    by rewrite Hcur.
  - assert (stored_code p = p) as ->.
    { apply path_to_parent_inv in Hp as [(? & -> & _)|(? & -> & _)]; done. }
    rewrite (decode_text_loop_path (Node_parent (Node_freq l + Node_freq r) l r)
               _ _ _ Hp) by done.
    by rewrite set_current_node_id.
Qed.

Lemma built_decode_encoded symbols : ∀ bits result rest,
  current_node self = Some node → encode_chars self symbols = Ok bits →
  decode_text_loop self (chars bits ++ rest) result =
  decode_text_loop self rest (result ++ (Some <$> symbols)).
Proof.
  induction symbols as [|char symbols IH]; intros bits result rest Hcur Henc;
    simpl in Henc; ok_inv.
  { simpl. by rewrite app_nil_r. }
  unfold encode in Henc.
  destruct (code_table self !! Some char) as [code|] eqn:Hcode; simpl in Henc; ok_inv.
  destruct (encode_chars self symbols) as [bits'|] eqn:Hbits; simpl in Henc; ok_inv.
  rewrite chars_app, <-(assoc_L (++)).
  rewrite (built_decode_code _ _ _ _ Hcur Hcode).
  rewrite (IH bits' _ _ Hcur eq_refl).
  by rewrite fmap_cons, <-(assoc_L (++)).
Qed.

Lemma built_encode_chars symbols :
  Forall (λ char, char ∈ freq_dict.*1) symbols →
  ∃ bits, encode_chars self symbols = Ok bits ∧ bitstring bits.
Proof.
  induction 1 as [|char symbols Hchar _ (bits & Hbits & Hbs)].
  { exists "". split; [done|constructor]. }
  destruct (built_encode char Hchar) as [code Hcode].
  exists (code +:+ bits). simpl. rewrite Hcode, Hbits. split; [done|].
  unfold bitstring. rewrite chars_app. apply Forall_app. split; [|done].
  unfold encode in Hcode.
  destruct (code_table self !! Some char) as [c|] eqn:Hc; ok_inv.
  by eapply built_bitstring.
Qed.

(** Reading a code only in part yields nothing. *)
Lemma built_decode_partial k p q result :
  current_node self = Some node → code_table self !! k = Some (p +:+ q) →
  q ≠ "" →
  ∃ self', decode_text_loop self (chars p) result = (Ok result, self').
Proof.
  intros Hcur (p' & Hp & Heq)%built_lookup Hq.
  pose proof (built_root _ _ _ Hbuilt) as Hroot.
  destruct (huffman_tree_leaf_or_parent node) as [(f & ch & ->)|(l & r & -> & _)];
    [apply Hbuilt| |].
  - apply path_to_leaf_inv in Hp as [-> ->].
    destruct p as [|a p]; [by exists self|].
    rewrite append_cons in Heq. injection Heq as _ [_ ->]%append_eq_nil. done.
  - assert (stored_code p' = p') as Hs.
    { apply path_to_parent_inv in Hp as [(? & -> & _)|(? & -> & _)]; done. }
    rewrite Hs in Heq. subst p'.
    destruct (decode_text_loop_partial
                (Node_parent (Node_freq l + Node_freq r) l r) p q Hq eq_refl
                _ k self result Hp Hroot Hcur) as [n' Hn'].
    eauto.
Qed.
End built.

Lemma join_symbols symbols : join (Some <$> symbols) = Ok (concat_symbols symbols).
Proof.
  induction symbols as [|s symbols IH]; [done|].
  rewrite fmap_cons. cbn [join]. by rewrite IH.
Qed.

Lemma concat_symbols_chars text : concat_symbols (chars text) = text.
Proof.
  induction text as [|a text IH]; [done|]. simpl. by rewrite IH.
Qed.

(** [decode_text_loop] and [feed] collect the same symbols. *)
Lemma decode_text_loop_feed bits : ∀ self result,
  decode_text_loop self bits result =
  let '(collected, self') := feed self bits in
  (symbols ←? collected; Ok (result ++ symbols), self').
Proof.
  induction bits as [|bit bits IH]; intros self result; simpl.
  { by rewrite app_nil_r. }
  destruct (decode self bit) as [[[ok char]|e] self1]; [|done].
  rewrite IH. destruct (feed self1 bits) as [[symbols|e] self2]; [|done].
  simpl. destruct ok; [|done]. by rewrite <-(assoc_L (++)).
Qed.

(** ** The cursor stays inside the tree *)

Lemma nodes_self n : n ∈ nodes n.
Proof. destruct n. simpl. left. Qed.

Lemma nodes_Node_parent freq l r :
  nodes (Node_parent freq l r) = Node_parent freq l r :: nodes l ++ nodes r.
Proof. done. Qed.

Lemma nodes_huffman_tree rt m : huffman_tree rt → m ∈ nodes rt → huffman_tree m.
Proof.
  induction 1 as [freq char|l r Hl IHl Hr IHr]; intros Hm.
  - apply list_elem_of_singleton in Hm as ->. constructor.
  - rewrite nodes_Node_parent, elem_of_cons, elem_of_app in Hm.
    destruct Hm as [->|[Hm|Hm]]; [by constructor|eauto..].
Qed.

Lemma nodes_child rt m c :
  huffman_tree rt → m ∈ nodes rt →
  Node_left m = Some c ∨ Node_right m = Some c → c ∈ nodes rt.
Proof.
  induction 1 as [freq char|l r Hl IHl Hr IHr]; intros Hm Hc.
  - apply list_elem_of_singleton in Hm as ->. by destruct Hc.
  - rewrite nodes_Node_parent, elem_of_cons, elem_of_app in Hm.
    rewrite nodes_Node_parent, elem_of_cons, elem_of_app.
    destruct Hm as [->|[Hm|Hm]]; [|eauto..].
    right. destruct Hc as [Hc|Hc]; simpl in Hc; injection Hc as Hc; subst c;
      [left|right]; apply nodes_self.
Qed.

Lemma nodes_leaf_key rt m :
  huffman_tree rt → m ∈ nodes rt → Node_is_leaf m = true →
  Node_char m ∈ (leaves rt).*1.
Proof.
  induction 1 as [freq char|l r Hl IHl Hr IHr]; intros Hm Hleaf.
  - apply list_elem_of_singleton in Hm as ->. simpl. left.
  - rewrite nodes_Node_parent, elem_of_cons, elem_of_app in Hm.
    rewrite leaves_Node_parent, fmap_app, elem_of_app.
    destruct Hm as [->|[Hm|Hm]]; [done|eauto..].
Qed.

Lemma decode_Ok_valid self bit r self' :
  decode self bit = (Ok r, self') → bit = "0" ∨ bit = "1".
Proof. unfold decode. destruct (decide (bit = "0" ∨ bit = "1")); [done|]. done. Qed.

Lemma built_from_set_current_node freq_dict self rt cur :
  built_from freq_dict self rt → built_from freq_dict (set_current_node self cur) rt.
Proof. intros [? ? ? ? ?]. by split. Qed.

(** On a built instance a step on '0' or '1' returns, keeps the cursor
    inside the tree, and a symbol it reports is a leaf of the tree. *)
Lemma built_decode_step freq_dict self rt bit :
  built_from freq_dict self rt → cursor_inside self rt → bit = "0" ∨ bit = "1" →
  ∃ ok char self',
    decode self bit = (Ok (ok, char), self') ∧
    built_from freq_dict self' rt ∧ cursor_inside self' rt ∧
    (ok = true → char ∈ (leaves rt).*1).
Proof.
  intros Hbuilt (cur & Hcur & Hin & Hinner) Hbit.
  pose proof (built_root _ _ _ Hbuilt) as Hroot.
  pose proof (built_tree _ _ _ Hbuilt) as Htree.
  destruct (Node_is_leaf rt) eqn:Hleaf.
  { exists true, (Node_char rt), self. split_and!.
    - apply decode_single; [done..| |done]. by rewrite Hcur.
    - done.
    - exists cur. split_and!; [done..|congruence].
    - intros _. apply nodes_leaf_key; [done|apply nodes_self|done]. }
  specialize (Hinner eq_refl).
  destruct (huffman_tree_leaf_or_parent cur) as [(f & c & ->)|(l & r & -> & _)];
    [by eapply nodes_huffman_tree|done|].
  set (cur := Node_parent (Node_freq l + Node_freq r) l r) in *.
  assert (∃ next, (bit = "0" ∧ Node_left cur = Some next ∨
                   bit = "1" ∧ Node_right cur = Some next)) as [next Hnext].
  { destruct Hbit as [->| ->]; [exists l|exists r]; tauto. }
  assert (next ∈ nodes rt) as Hnin.
  { apply (nodes_child rt cur); [done..|tauto]. }
  rewrite (decode_descend self rt cur bit next Hroot Hleaf Hcur Hnext).
  destruct (Node_is_leaf next) eqn:Hnl.
  - exists true, (Node_char next), (set_current_node self (Some rt)). split_and!.
    + done.
    + by apply built_from_set_current_node.
    + exists rt. split_and!; [done|apply nodes_self|done].
    + intros _. by apply nodes_leaf_key.
  - exists false, None, (set_current_node self (Some next)). split_and!.
    + done.
    + by apply built_from_set_current_node.
    + by exists next.
    + done.
Qed.

Lemma built_feed freq_dict rt bits : ∀ self collected self',
  built_from freq_dict self rt → cursor_inside self rt →
  feed self bits = (Ok collected, self') →
  Forall (λ k, k ∈ (leaves rt).*1) collected.
Proof.
  induction bits as [|bit bits IH]; intros self collected self' Hbuilt Hin Hfeed;
    cbn [feed] in Hfeed.
  { simplify_eq. constructor. }
  destruct (decode self bit) as [[[ok char]|e] self1] eqn:Hdec; [|done].
  destruct (built_decode_step _ _ _ bit Hbuilt Hin) as
    (ok' & char' & self1' & Hdec' & Hbuilt1 & Hin1 & Hkey);
    [by eapply decode_Ok_valid|].
  rewrite Hdec in Hdec'. simplify_eq.
  destruct (feed self1' bits) as [[rest|e] self2] eqn:Hrest; [|done].
  cbn [bind] in Hfeed. simplify_eq.
  specialize (IH _ _ _ Hbuilt1 Hin1 Hrest).
  destruct ok'; [|done]. constructor; [by apply Hkey|done].
Qed.

Lemma built_feed_total freq_dict rt bits : ∀ self,
  built_from freq_dict self rt → cursor_inside self rt →
  Forall (λ bit, bit = "0" ∨ bit = "1") bits →
  ∃ collected self', feed self bits = (Ok collected, self').
Proof.
  induction bits as [|bit bits IH]; intros self Hbuilt Hin Hbits; cbn [feed].
  { by eexists _, _. }
  apply Forall_cons in Hbits as [Hbit Hbits].
  destruct (built_decode_step _ _ _ bit Hbuilt Hin Hbit) as
    (ok & char & self1 & -> & Hbuilt1 & Hin1 & _).
  destruct (IH self1 Hbuilt1 Hin1 Hbits) as (rest & self2 & ->).
  by eexists _, _.
Qed.

Lemma keys_symbols node (freq_dict : list (string * Z)) collected :
  leaves node ≡ₚ items freq_dict →
  Forall (λ k, k ∈ (leaves node).*1) collected →
  ∃ symbols, collected = Some <$> symbols ∧
             Forall (λ symbol, symbol ∈ freq_dict.*1) symbols.
Proof.
  intros Hp. induction 1 as [|k collected Hk _ (symbols & -> & Hsym)].
  { by exists []. }
  apply (leaves_keys _ _ _ Hp) in Hk as (char & -> & Hchar).
  exists (char :: symbols). split; [done|]. by constructor.
Qed.

Lemma chars_concat_symbols symbols :
  Forall one_char symbols → chars (concat_symbols symbols) = symbols.
Proof.
  induction 1 as [|s symbols [a ->] _ IH]; [done|].
  cbn [concat_symbols foldr]. rewrite append_cons, append_nil_l. simpl.
  f_equal. apply IH.
Qed.

Lemma cursor_inside_reset self rt :
  root self = Some rt → cursor_inside (reset_decoder self) rt.
Proof. intros Hroot. exists rt. split_and!; [done|apply nodes_self|done]. Qed.

(** [decode_text] is the caller's loop, joined. *)
Lemma decode_text_incremental self (B : string) :
  decode_text self B =
  let '(collected, self') := incremental_decode self B in
  (symbols ←? collected; join symbols, self').
Proof.
  unfold decode_text, incremental_decode.
  rewrite decode_text_loop_feed.
  destruct (feed (reset_decoder self) (chars B)) as [[symbols|e] self']; done.
Qed.

(** On a built instance every string of '0' and '1' decodes. *)
Lemma built_decode_text_total freq_dict self rt (B : string) :
  built_from freq_dict self rt → bitstring B →
  ∃ text self', decode_text self B = (Ok text, self').
Proof.
  intros Hbuilt HB. rewrite decode_text_incremental. unfold incremental_decode.
  pose proof (built_root _ _ _ Hbuilt) as Hroot.
  destruct (built_feed_total freq_dict rt (chars B) (reset_decoder self))
    as (collected & self' & Hfeed);
    [by apply built_from_set_current_node|by apply cursor_inside_reset|done|].
  rewrite Hfeed. cbn [bind].
  apply (built_feed freq_dict rt) in Hfeed;
    [|by apply built_from_set_current_node|by apply cursor_inside_reset].
  destruct (keys_symbols rt freq_dict collected) as (symbols & -> & _);
    [apply Hbuilt|done|].
  rewrite join_symbols. by eexists _, _.
Qed.

(** [encode_text] reads the table only. *)
Lemma encode_chars_table self1 self2 (symbols : list string) :
  code_table self1 = code_table self2 →
  encode_chars self1 symbols = encode_chars self2 symbols.
Proof.
  intros Ht. induction symbols as [|c symbols IH]; [done|].
  cbn [encode_chars]. unfold encode. by rewrite Ht, IH.
Qed.

(** [decode] assigns to [self.current_node] only. *)
Lemma decode_frame self bit :
  root (decode self bit).2 = root self ∧
  code_table (decode self bit).2 = code_table self.
Proof.
  unfold decode. destruct (decide (bit = "0" ∨ bit = "1")); [|done].
  destruct self as [rt table cur]. cbn [root current_node code_table].
  destruct rt as [rt|]; [|done].
  destruct cur as [cur|]; cbn [set_current_node root current_node code_table];
    destruct (Node_is_leaf rt); try done.
  - destruct (decide (bit = "0")).
    + destruct (Node_left cur) as [next|]; [|done]. by destruct (Node_is_leaf next).
    + destruct (Node_right cur) as [next|]; [|done]. by destruct (Node_is_leaf next).
  - destruct (decide (bit = "0")).
    + destruct (Node_left rt) as [next|]; [|done]. by destruct (Node_is_leaf next).
    + destruct (Node_right rt) as [next|]; [|done]. by destruct (Node_is_leaf next).
Qed.

Lemma feed_frame (bits : list string) : ∀ self,
  root (feed self bits).2 = root self ∧
  code_table (feed self bits).2 = code_table self.
Proof.
  induction bits as [|bit bits IH]; intros self; cbn [feed]; [done|].
  pose proof (decode_frame self bit) as [Hr Ht].
  destruct (decode self bit) as [[[ok char]|e] self1]; [|done].
  cbn [snd] in Hr, Ht. specialize (IH self1).
  destruct (feed self1 bits) as [rest self2]. cbn [snd] in *.
  destruct IH as [IHr IHt]. by rewrite IHr, IHt.
Qed.

(** An instance with the tree and the table of a built one is built. *)
Lemma built_from_frame freq_dict self1 self2 rt :
  built_from freq_dict self1 rt →
  root self2 = root self1 → code_table self2 = code_table self1 →
  built_from freq_dict self2 rt.
Proof. intros [? ? ? ? ?] Hr Ht. split; [by rewrite Hr|by rewrite Ht|done..]. Qed.

Lemma built_decode_text_built freq_dict self rt (B : string) :
  built_from freq_dict self rt → built_from freq_dict (decode_text self B).2 rt.
Proof.
  intros Hbuilt. rewrite decode_text_incremental. unfold incremental_decode.
  destruct (feed_frame (chars B) (reset_decoder self)) as [Hr Ht].
  destruct (feed (reset_decoder self) (chars B)) as [collected self'].
  cbn [snd] in *. by apply (built_from_frame _ self).
Qed.

(* ================================================================== *)
(** * The properties of the specification *)

(** C1 (round trip).  For a tree built from a non-empty frequency dictionary
    and a text [S] whose characters are all keys of the dictionary: on every
    instance [s] that holds the tree and its table, wherever earlier calls
    of [decode] or [decode_text] have left the cursor, [encode_text] returns
    a bit string and [decode_text] of that bit string returns [S], leaving
    the cursor on the root.  The instance as the build leaves it is one such
    [s], with the cursor on the root.  [S] may also be empty. *)
Theorem round_trip self (freq_dict : list (string * Z)) (S : string) :
  freq_dict ≠ [] → NoDup freq_dict.*1 →
  Forall (λ char, char ∈ freq_dict.*1) (chars S) →
  ∃ self' node bits,
    build_from_frequencies self freq_dict = (Ok tt, self') ∧
    built_from freq_dict self' node ∧ current_node self' = Some node ∧
    ∀ s, built_from freq_dict s node →
      encode_text s S = Ok bits ∧
      decode_text s bits = (Ok S, reset_decoder s).
Proof.
  intros Hne Hnd HS.
  destruct (build_from_frequencies_built self freq_dict Hne Hnd)
    as (self' & node & Hbuild & Hbuilt & Hcur).
  destruct (built_encode_chars Hbuilt (chars S) HS) as (bits & Hbits & _).
  exists self', node, bits. split_and!; [done..|].
  intros s Hs.
  assert (code_table s = code_table self') as Htable
    by (by rewrite (built_table _ _ _ Hs), (built_table _ _ _ Hbuilt)).
  split.
  { unfold encode_text. by rewrite (encode_chars_table s self'). }
  assert (built_from freq_dict (reset_decoder s) node) as Hreset
    by (by apply built_from_set_current_node).
  assert (current_node (reset_decoder s) = Some node) as Hroot
    by apply (built_root _ _ _ Hs).
  assert (encode_chars (reset_decoder s) (chars S) = Ok bits) as Henc
    by (by rewrite (encode_chars_table _ self')).
  unfold decode_text.
  rewrite <-(app_nil_r (chars bits)).
  rewrite (built_decode_encoded Hreset (chars S) bits [] [] Hroot Henc).
  simpl. by rewrite join_chars.
Qed.

Lemma round_trip_witness :
  mississippi ≠ [] ∧ NoDup mississippi.*1 ∧
  Forall (λ char, char ∈ mississippi.*1) (chars "MISSISSIPPI") ∧
  ∃ self' node bits,
    build_from_frequencies __init__ mississippi = (Ok tt, self') ∧
    built_from mississippi self' node ∧ current_node self' = Some node ∧
    ∀ s, built_from mississippi s node →
      encode_text s "MISSISSIPPI" = Ok bits ∧
      decode_text s bits = (Ok "MISSISSIPPI", reset_decoder s).
Proof.
  assert (mississippi ≠ []) as H1 by done.
  assert (NoDup mississippi.*1) as H2 by (apply (bool_decide_unpack _); vm_compute; exact I).
  assert (Forall (λ char, char ∈ mississippi.*1) (chars "MISSISSIPPI")) as H3
    by (apply (bool_decide_unpack _); vm_compute; exact I).
  split_and!; [done..|].
  exact (round_trip __init__ mississippi "MISSISSIPPI" H1 H2 H3).
Defined.

(** C2 (prefix-free).  For a tree built from a dictionary with two keys or
    more, every key has a code in the table, every code in the table is a
    non-empty string of '0' and '1' and belongs to a key, and the code of one
    key is never a prefix of the code of another key. *)
Theorem prefix_free self (freq_dict : list (string * Z)) :
  NoDup freq_dict.*1 → (2 ≤ length freq_dict)%nat →
  ∃ self',
    build_from_frequencies self freq_dict = (Ok tt, self') ∧
    (∀ char, char ∈ freq_dict.*1 → is_Some (code_table self' !! Some char)) ∧
    (∀ k code, code_table self' !! k = Some code →
       code ≠ "" ∧ bitstring code ∧ ∃ char, k = Some char ∧ char ∈ freq_dict.*1) ∧
    (∀ k1 k2 code1 code2,
       code_table self' !! k1 = Some code1 →
       code_table self' !! k2 = Some code2 →
       k1 ≠ k2 → ¬ is_prefix code1 code2).
Proof.
  intros Hnd Hlen.
  destruct (build_from_frequencies_built self freq_dict) as
    (self' & node & Hbuild & Hbuilt & Hcur); [intros ->; simpl in Hlen; lia|done|].
  exists self'. split_and!; [done| | |].
  - intros char Hchar. destruct (built_encode Hbuilt char Hchar) as [code Hcode].
    unfold encode in Hcode. by destruct (code_table self' !! Some char).
  - intros k code Hk. split_and!.
    + by eapply built_nonempty.
    + by eapply built_bitstring.
    + by eapply built_key.
  - intros k1 k2 code1 code2 (p1 & Hp1 & ->)%(built_lookup Hbuilt)
      (p2 & Hp2 & ->)%(built_lookup Hbuilt) Hk Hpre.
    pose proof (built_root_parent Hbuilt Hlen) as Hleaf.
    assert (∀ p k, path_to node p k → stored_code p = p) as Hstored.
    { intros p k Hp. destruct p; [|done]. inversion Hp; congruence. }
    rewrite (Hstored _ _ Hp1), (Hstored _ _ Hp2) in Hpre.
    by destruct (path_to_prefix _ _ _ _ _ Hp1 Hp2 Hpre).
Qed.

Lemma prefix_free_witness :
  NoDup mississippi.*1 ∧ (2 ≤ length mississippi)%nat ∧
  ∃ self',
    build_from_frequencies __init__ mississippi = (Ok tt, self') ∧
    (∀ char, char ∈ mississippi.*1 → is_Some (code_table self' !! Some char)) ∧
    (∀ k code, code_table self' !! k = Some code →
       code ≠ "" ∧ bitstring code ∧ ∃ char, k = Some char ∧ char ∈ mississippi.*1) ∧
    (∀ k1 k2 code1 code2,
       code_table self' !! k1 = Some code1 →
       code_table self' !! k2 = Some code2 →
       k1 ≠ k2 → ¬ is_prefix code1 code2).
Proof.
  assert (NoDup mississippi.*1) as H1 by (apply (bool_decide_unpack _); vm_compute; exact I).
  assert (2 ≤ length mississippi)%nat as H2 by (simpl; lia).
  split_and!; [done..|].
  exact (prefix_free __init__ mississippi H1 H2).
Defined.

(** C3 (frequency conservation).  On a non-empty dictionary the builder
    succeeds; in the tree it leaves, every node that is not a leaf has two
    children and carries the sum of their frequencies, the leaves carry the
    items of the dictionary, each with its count, and the root carries the
    sum of all counts of the dictionary. *)
Theorem frequency_conservation self (freq_dict : list (string * Z)) :
  freq_dict ≠ [] →
  ∃ self' node,
    build_from_frequencies self freq_dict = (Ok tt, self') ∧
    root self' = Some node ∧
    (∀ m, m ∈ nodes node → Node_is_leaf m = false →
       ∃ l r, Node_left m = Some l ∧ Node_right m = Some r ∧
              Node_freq m = Node_freq l + Node_freq r) ∧
    leaves node ≡ₚ items freq_dict ∧
    Node_freq node = total freq_dict.
Proof.
  intros Hne.
  destruct (build_from_frequencies_spec self freq_dict Hne)
    as (node & Hbuild & Htree & Hleaves).
  eexists _, node. split_and!; [exact Hbuild|done| |done|].
  - intros m Hm. pose proof (huffman_tree_nodes node Htree) as Hall.
    rewrite Forall_forall in Hall. by apply Hall.
  - rewrite (huffman_tree_freq node Htree), (total_perm _ _ Hleaves).
    apply total_items.
Qed.

Lemma frequency_conservation_witness :
  mississippi ≠ [] ∧
  ∃ self' node,
    build_from_frequencies __init__ mississippi = (Ok tt, self') ∧
    root self' = Some node ∧
    (∀ m, m ∈ nodes node → Node_is_leaf m = false →
       ∃ l r, Node_left m = Some l ∧ Node_right m = Some r ∧
              Node_freq m = Node_freq l + Node_freq r) ∧
    leaves node ≡ₚ items mississippi ∧
    Node_freq node = total mississippi.
Proof.
  assert (mississippi ≠ []) as H1 by done.
  split; [done|]. exact (frequency_conservation __init__ mississippi H1).
Defined.

(** C10 (incomplete tail).  For a built tree, let [bits] be the codes of any
    sequence of symbols of the dictionary, one after the other, and [p] a
    strict prefix of the code of some symbol.  On every instance [s] that
    holds the tree and its table, wherever earlier calls have left the
    cursor, [decode_text] of [bits] followed by [p] does not raise: it
    returns the symbols, joined, and drops [p]; the instance it leaves, with
    the cursor inside the tree, is again such an instance, so the next
    [decode_text] answers in the same way.  The empty string decodes to the
    empty string, and every string of '0' and '1' decodes.  (For a text [S],
    [encode_chars s (chars S)] is [encode_text s S] and
    [concat_symbols (chars S)] is [S].) *)
Theorem decode_text_incomplete_tail self (freq_dict : list (string * Z))
    (symbols : list string) :
  freq_dict ≠ [] → NoDup freq_dict.*1 →
  Forall (λ symbol, symbol ∈ freq_dict.*1) symbols →
  ∃ self' node bits,
    build_from_frequencies self freq_dict = (Ok tt, self') ∧
    built_from freq_dict self' node ∧ current_node self' = Some node ∧
    ∀ s, built_from freq_dict s node →
      encode_chars s symbols = Ok bits ∧
      (∀ k p q, code_table s !! k = Some (p +:+ q) → q ≠ "" →
         ∃ s', decode_text s (bits +:+ p) = (Ok (concat_symbols symbols), s') ∧
               built_from freq_dict s' node) ∧
      decode_text s "" = (Ok "", reset_decoder s) ∧
      (∀ B, bitstring B →
         ∃ text s', decode_text s B = (Ok text, s') ∧ built_from freq_dict s' node).
Proof.
  intros Hne Hnd Hsym.
  destruct (build_from_frequencies_built self freq_dict Hne Hnd)
    as (self' & node & Hbuild & Hbuilt & Hcur).
  destruct (built_encode_chars Hbuilt symbols Hsym) as (bits & Hbits & _).
  exists self', node, bits. split_and!; [done..|].
  intros s Hs.
  assert (code_table s = code_table self') as Htable
    by (by rewrite (built_table _ _ _ Hs), (built_table _ _ _ Hbuilt)).
  assert (built_from freq_dict (reset_decoder s) node) as Hreset
    by (by apply built_from_set_current_node).
  assert (current_node (reset_decoder s) = Some node) as Hroot
    by apply (built_root _ _ _ Hs).
  assert (encode_chars (reset_decoder s) symbols = Ok bits) as Henc
    by (by rewrite (encode_chars_table _ self')).
  split_and!.
  - by rewrite (encode_chars_table s self').
  - intros k p q Hk Hq.
    pose proof (built_decode_text_built freq_dict s node (bits +:+ p) Hs) as Hs'.
    exists (decode_text s (bits +:+ p)).2. split; [|done].
    unfold decode_text. rewrite chars_app.
    rewrite (built_decode_encoded Hreset symbols bits [] _ Hroot Henc).
    destruct (built_decode_partial Hreset k p q ([] ++ (Some <$> symbols)) Hroot Hk Hq)
      as [s'' ->].
    simpl. by rewrite join_symbols.
  - done.
  - intros B HB.
    destruct (built_decode_text_total freq_dict s node B Hs HB) as (text & s' & Hdec).
    exists text, s'. split; [done|].
    pose proof (built_decode_text_built freq_dict s node B Hs) as Hs'.
    by rewrite Hdec in Hs'.
Qed.

Lemma decode_text_incomplete_tail_witness :
  mississippi ≠ [] ∧ NoDup mississippi.*1 ∧
  Forall (λ symbol, symbol ∈ mississippi.*1) ["S"; "I"; "P"] ∧
  ∃ self' node bits,
    build_from_frequencies __init__ mississippi = (Ok tt, self') ∧
    built_from mississippi self' node ∧ current_node self' = Some node ∧
    ∀ s, built_from mississippi s node →
      encode_chars s ["S"; "I"; "P"] = Ok bits ∧
      (∀ k p q, code_table s !! k = Some (p +:+ q) → q ≠ "" →
         ∃ s', decode_text s (bits +:+ p) = (Ok (concat_symbols ["S"; "I"; "P"]), s') ∧
               built_from mississippi s' node) ∧
      decode_text s "" = (Ok "", reset_decoder s) ∧
      (∀ B, bitstring B →
         ∃ text s', decode_text s B = (Ok text, s') ∧ built_from mississippi s' node).
Proof.
  assert (mississippi ≠ []) as H1 by done.
  assert (NoDup mississippi.*1) as H2 by (apply (bool_decide_unpack _); vm_compute; exact I).
  assert (Forall (λ symbol, symbol ∈ mississippi.*1) ["S"; "I"; "P"]) as H3
    by (apply (bool_decide_unpack _); vm_compute; exact I).
  split_and!; [done..|].
  exact (decode_text_incomplete_tail __init__ mississippi ["S"; "I"; "P"] H1 H2 H3).
Defined.

(** C4 (single symbol).  Building from a dictionary with one entry leaves a
    root that is the leaf of that symbol and has no other node, the table
    with the single entry that maps the symbol to "0", and a decoder that
    answers every call on '0' or '1' with the symbol and stays as it is, for
    any number of calls. *)
Theorem single_symbol self (char : string) (freq : Z) :
  ∃ self',
    build_from_frequencies self [(char, freq)] = (Ok tt, self') ∧
    root self' = Some (Node_leaf freq char) ∧
    nodes (Node_leaf freq char) = [Node_leaf freq char] ∧
    Node_is_leaf (Node_leaf freq char) = true ∧
    code_table self' = {[ Some char := "0" ]} ∧
    (∀ bit, bit = "0" ∨ bit = "1" →
       decode self' bit = (Ok (true, Some char), self')) ∧
    (∀ bits, Forall (λ bit, bit = "0" ∨ bit = "1") bits →
       feed self' bits = (Ok (replicate (length bits) (Some char)), self')).
Proof.
  eexists. split; [reflexivity|]. split_and!; [done..| |].
  - intros bit Hbit. by apply (decode_single _ (Node_leaf freq char)).
  - induction 1 as [|bit bits Hbit _ IH]; [done|].
    cbn [feed]. rewrite (decode_single _ (Node_leaf freq char)) by done.
    by rewrite IH.
Qed.

(** C5, as the code has it.  On an instance on which no tree was built,
    [decode] of '0' or '1' raises the error of an uninitialized tree, and
    [encode] of any symbol raises the error of an unknown symbol: [encode]
    only looks the symbol up in the table, which is empty. *)
Theorem uninitialized_errors self :
  root self = None → code_table self = ∅ →
  (∀ char, encode self char = Raise (ValueError_unknown_char char) ∧
           kind_of (ValueError_unknown_char char) = Some UnknownSymbol) ∧
  (∀ bit, bit = "0" ∨ bit = "1" →
     decode self bit = (Raise ValueError_not_initialized, self) ∧
     kind_of ValueError_not_initialized = Some UninitializedTree).
Proof.
  intros Hroot Htable. split.
  - intros char. unfold encode. by rewrite Htable, lookup_empty.
  - intros bit Hbit. unfold decode. rewrite decide_True by done. by rewrite Hroot.
Qed.

Lemma uninitialized_errors_witness :
  root __init__ = None ∧ code_table __init__ = ∅ ∧
  (∀ char, encode __init__ char = Raise (ValueError_unknown_char char) ∧
           kind_of (ValueError_unknown_char char) = Some UnknownSymbol) ∧
  (∀ bit, bit = "0" ∨ bit = "1" →
     decode __init__ bit = (Raise ValueError_not_initialized, __init__) ∧
     kind_of ValueError_not_initialized = Some UninitializedTree).
Proof.
  split; [reflexivity|]. split; [reflexivity|].
  exact (uninitialized_errors __init__ eq_refl eq_refl).
Defined.

(** C5 as stated fails for [encode]: on a fresh instance the error of
    [encode "a"] is that of an unknown symbol, not that of an uninitialized
    tree. *)
Lemma encode_uninitialized_counterexample :
  encode __init__ "a" = Raise (ValueError_unknown_char "a") ∧
  ¬ ∃ e, encode __init__ "a" = Raise e ∧ kind_of e = Some UninitializedTree.
Proof.
  split; [reflexivity|]. intros (e & He & Hkind).
  vm_compute in He. injection He as <-. discriminate Hkind.
Qed.

(** C6 (invalid bit).  On every instance, [decode] of a bit other than '0'
    and '1' raises the error of an invalid input and leaves root, table and
    cursor as they were, so the next call answers as if the failed call had
    not been made. *)
Theorem decode_invalid_bit self (bit : string) :
  bit ≠ "0" → bit ≠ "1" →
  ∃ e,
    decode self bit = (Raise e, self) ∧ kind_of e = Some InvalidInput ∧
    ∀ next, decode (decode self bit).2 next = decode self next.
Proof.
  intros H0 H1. exists (ValueError_bad_bit bit).
  rewrite (decode_bad_bit self bit H0 H1). done.
Qed.

Lemma decode_invalid_bit_witness :
  "2" ≠ "0" ∧ "2" ≠ "1" ∧
  ∃ e,
    decode mississippi_midway "2" = (Raise e, mississippi_midway) ∧
    kind_of e = Some InvalidInput ∧
    ∀ next, decode (decode mississippi_midway "2").2 next =
            decode mississippi_midway next.
Proof.
  assert ("2" ≠ "0") as H0 by discriminate.
  assert ("2" ≠ "1") as H1 by discriminate.
  split; [done|]. split; [done|].
  exact (decode_invalid_bit mississippi_midway "2" H0 H1).
Defined.

(** C7 (incremental decoding).  On every instance and every string [B],
    [decode_text] returns what the caller's loop collects, joined: the same
    symbols in the same order, or the same exception at the same bit, and
    the same instance at the end.  On an instance just built from a
    dictionary whose keys are single characters, every string of '0' and '1'
    decodes, and the characters of the text that [decode_text] returns are,
    one by one, the symbols that the caller's loop collects. *)
Theorem incremental_decode_equivalence self (B : string) :
  decode_text self B =
    (let '(collected, self') := incremental_decode self B in
     (symbols ←? collected; join symbols, self')) ∧
  ∀ (freq_dict : list (string * Z)) self0,
    freq_dict ≠ [] → NoDup freq_dict.*1 → Forall one_char freq_dict.*1 →
    build_from_frequencies self0 freq_dict = (Ok tt, self) →
    (bitstring B → ∃ text self', decode_text self B = (Ok text, self')) ∧
    (∀ text self', decode_text self B = (Ok text, self') →
       incremental_decode self B = (Ok (Some <$> chars text), self')).
Proof.
  split; [apply decode_text_incremental|].
  intros freq_dict self0 Hne Hnd Hone Hbuild.
  destruct (build_from_frequencies_built self0 freq_dict Hne Hnd)
    as (self1 & node & Hbuild1 & Hbuilt & Hcur).
  rewrite Hbuild in Hbuild1. injection Hbuild1 as <-.
  split; [by eapply built_decode_text_total|].
  intros text self' Hdec. rewrite decode_text_incremental in Hdec.
  unfold incremental_decode in *.
  destruct (feed (reset_decoder self) (chars B)) as [[collected|e] self2] eqn:Hfeed;
    [|done].
  cbn [bind] in Hdec. injection Hdec as Hjoin <-.
  apply built_feed with (freq_dict := freq_dict) (rt := node) in Hfeed;
    [|by apply built_from_set_current_node
     |apply cursor_inside_reset, Hbuilt].
  destruct (keys_symbols node freq_dict collected) as (symbols & -> & Hsym);
    [apply Hbuilt|done|].
  rewrite join_symbols in Hjoin. injection Hjoin as <-.
  rewrite chars_concat_symbols; [done|].
  rewrite Forall_forall in Hone. rewrite Forall_forall in Hsym.
  apply Forall_forall. eauto.
Qed.

Lemma incremental_decode_equivalence_witness :
  mississippi ≠ [] ∧ NoDup mississippi.*1 ∧ Forall one_char mississippi.*1 ∧
  bitstring "100011" ∧
  decode_text (build_from_frequencies __init__ mississippi).2 "100011" =
    (Ok "MIS", (build_from_frequencies __init__ mississippi).2) ∧
  incremental_decode (build_from_frequencies __init__ mississippi).2 "100011" =
    (Ok [Some "M"; Some "I"; Some "S"], (build_from_frequencies __init__ mississippi).2).
Proof.
  assert (mississippi ≠ []) as H1 by done.
  assert (NoDup mississippi.*1) as H2 by (apply (bool_decide_unpack _); vm_compute; exact I).
  assert (Forall one_char mississippi.*1) as H3 by (repeat constructor; eexists; reflexivity).
  assert (bitstring "100011") as H4 by (apply (bool_decide_unpack _); vm_compute; exact I).
  assert (decode_text (build_from_frequencies __init__ mississippi).2 "100011" =
    (Ok "MIS", (build_from_frequencies __init__ mississippi).2)) as H5
    by (vm_compute; reflexivity).
  split_and!; [done..|].
  exact (proj2 (proj2
    (incremental_decode_equivalence
       (build_from_frequencies __init__ mississippi).2 "100011")
    mississippi __init__ H1 H2 H3 eq_refl) "MIS" _ H5).
Defined.

(** C8 (determinism).  The outcome of [build_from_frequencies] on a
    non-empty dictionary, and the instance it leaves (root, table, cursor),
    depend only on the ordered dictionary and not on what the instance held
    before; in particular building a second time from the same dictionary
    gives the same table.  Nodes are compared by frequency alone and nodes of
    equal frequency are ordered by their place in the heap list, which the
    order of the dictionary fixes. *)
Theorem build_deterministic self1 self2 (freq_dict : list (string * Z)) :
  freq_dict ≠ [] →
  build_from_frequencies self1 freq_dict = build_from_frequencies self2 freq_dict ∧
  get_code_table (build_from_frequencies self1 freq_dict).2 =
    get_code_table (build_from_frequencies self2 freq_dict).2 ∧
  build_from_frequencies (build_from_frequencies self1 freq_dict).2 freq_dict =
    build_from_frequencies self1 freq_dict.
Proof.
  intros Hne.
  assert (∀ s1 s2, build_from_frequencies s1 freq_dict =
                   build_from_frequencies s2 freq_dict) as Heq.
  { intros s1 s2.
    destruct (build_from_frequencies_spec s1 freq_dict Hne) as (n1 & H1 & _).
    destruct (build_from_frequencies_spec s2 freq_dict Hne) as (n2 & H2 & _).
    revert H1 H2. unfold build_from_frequencies.
    destruct freq_dict as [|[char freq] [|item fd]]; [done..|].
    destruct (bind _ _) as [node|e]; [done|].
    intros; simplify_eq. }
  split_and!; [apply Heq| by rewrite (Heq self1 self2) |apply Heq].
Qed.

Lemma build_deterministic_witness :
  mississippi ≠ [] ∧
  build_from_frequencies __init__ mississippi =
    build_from_frequencies (build_from_frequencies __init__ only_A).2 mississippi ∧
  get_code_table (build_from_frequencies __init__ mississippi).2 =
    get_code_table
      (build_from_frequencies (build_from_frequencies __init__ only_A).2 mississippi).2 ∧
  build_from_frequencies (build_from_frequencies __init__ mississippi).2 mississippi =
    build_from_frequencies __init__ mississippi.
Proof.
  assert (mississippi ≠ []) as H1 by done.
  split; [done|].
  exact (build_deterministic __init__ (build_from_frequencies __init__ only_A).2
           mississippi H1).
Defined.

(** C9 (the returned table is a copy).  [get_code_table] returns a new
    dictionary with the items of the instance's table.  Whatever the caller
    then does to the returned dictionary, the instance reads the same table
    as before: [encode] answers as before, and a later [get_code_table]
    returns the items of the original table again. *)
Theorem get_code_table_copy (σ σ1 : gmap positive (gmap (option string) string))
    (self : Objects.HuffmanTreeObj) (d : positive)
    (f : gmap (option string) string → gmap (option string) string) :
  Objects.get_code_table σ self = Some (d, σ1) →
  d ≠ Objects.obj_code_table self ∧
  σ1 !! d = σ !! Objects.obj_code_table self ∧
  Objects.load (Objects.mutate σ1 d f) self = Objects.load σ self ∧
  (∀ char, Objects.encode (Objects.mutate σ1 d f) self char =
           Objects.encode σ self char) ∧
  ∃ d' σ2,
    Objects.get_code_table (Objects.mutate σ1 d f) self = Some (d', σ2) ∧
    σ2 !! d' = σ !! Objects.obj_code_table self.
Proof.
  unfold Objects.get_code_table, Objects.dict_copy, Objects.mutate.
  destruct (σ !! Objects.obj_code_table self) as [table|] eqn:Htable;
    simpl; [|done].
  intros [= <- <-].
  assert (fresh (dom σ) ≠ Objects.obj_code_table self) as Hfresh.
  { intros Heq. apply (is_fresh (dom σ)). rewrite Heq.
    apply elem_of_dom. by exists table. }
  assert (alter f (fresh (dom σ)) (<[fresh (dom σ):=table]> σ)
            !! Objects.obj_code_table self = Some table) as Hkeep.
  { rewrite lookup_alter_ne by done. by rewrite lookup_insert_ne. }
  split_and!.
  - done.
  - by rewrite lookup_insert_eq.
  - unfold Objects.load. by rewrite Hkeep, Htable.
  - intros char. unfold Objects.encode, Objects.load. by rewrite Hkeep, Htable.
  - rewrite Hkeep. simpl. eexists _, _. split; [done|].
    by rewrite lookup_insert_eq.
Qed.

Lemma get_code_table_copy_witness :
  Objects.get_code_table Objects.example_store Objects.example_self =
    Some (2%positive, Objects.example_copied) ∧
  2%positive ≠ Objects.obj_code_table Objects.example_self ∧
  Objects.example_copied !! 2%positive =
    Objects.example_store !! Objects.obj_code_table Objects.example_self ∧
  Objects.load (Objects.mutate Objects.example_copied 2%positive (λ _, ∅))
    Objects.example_self =
    Objects.load Objects.example_store Objects.example_self ∧
  (∀ char,
     Objects.encode (Objects.mutate Objects.example_copied 2%positive (λ _, ∅))
       Objects.example_self char =
     Objects.encode Objects.example_store Objects.example_self char) ∧
  ∃ d' σ2,
    Objects.get_code_table
      (Objects.mutate Objects.example_copied 2%positive (λ _, ∅))
      Objects.example_self = Some (d', σ2) ∧
    σ2 !! d' = Objects.example_store !! Objects.obj_code_table Objects.example_self.
Proof.
  assert (Objects.get_code_table Objects.example_store Objects.example_self =
            Some (2%positive, Objects.example_copied)) as H
    by (vm_compute; reflexivity).
  split; [exact H|].
  exact (get_code_table_copy _ _ Objects.example_self 2%positive (λ _, ∅) H).
Defined.

(** Had the getter returned the dictionary itself, clearing the returned
    dictionary would have emptied the table that [encode] reads. *)
Lemma get_code_table_alias_shares :
  ∃ d σ1,
    Objects.get_code_table_alias Objects.example_store Objects.example_self =
      Some (d, σ1) ∧
    Objects.encode Objects.example_store Objects.example_self "M" = Some (Ok "100") ∧
    Objects.encode (Objects.mutate σ1 d (λ _, ∅)) Objects.example_self "M" =
      Some (Raise (ValueError_unknown_char "M")).
Proof. eexists _, _. split; [reflexivity|]. split; vm_compute; reflexivity. Qed.

(* ================================================================== *)
(** * Worked examples *)

Example count_chars_mississippi : count_chars "MISSISSIPPI" = mississippi.
Proof. vm_compute. reflexivity. Qed.

Example build_from_text_mississippi :
  build_from_text __init__ "MISSISSIPPI" = build_from_frequencies __init__ mississippi.
Proof. reflexivity. Qed.

(** The heap after [heapify], and the first merge: 'M' (1) and 'P' (2) are
    popped first. *)
Example heapify_mississippi :
  heapq.heapify (map (λ '(char, freq), Node_leaf freq char) mississippi) =
  Ok [Node_leaf 1 "M"; Node_leaf 2 "P"; Node_leaf 4 "S"; Node_leaf 4 "I"].
Proof. vm_compute. reflexivity. Qed.

Example root_mississippi :
  root (build_from_frequencies __init__ mississippi).2 =
  Some (Node_parent 11 (Node_leaf 4 "I")
          (Node_parent 7 (Node_parent 3 (Node_leaf 1 "M") (Node_leaf 2 "P"))
             (Node_leaf 4 "S"))).
Proof. vm_compute. reflexivity. Qed.

Example code_table_mississippi :
  map_to_list (code_table (build_from_frequencies __init__ mississippi).2) ≡ₚ
  [(Some "M", "100"); (Some "I", "0"); (Some "S", "11"); (Some "P", "101")].
Proof.
  vm_compute.
  apply (bool_decide_unpack _). vm_compute. exact I.
Qed.

Example encode_text_mississippi :
  encode_text (build_from_frequencies __init__ mississippi).2 "MISSISSIPPI" =
  Ok "100011110111101011010".
Proof. vm_compute. reflexivity. Qed.

Example encoded_length_mississippi :
  (String.length "100011110111101011010" ≤ 44)%nat.
Proof. vm_compute. lia. Qed.

Example only_A_scenario :
  let self := (build_from_frequencies __init__ only_A).2 in
  encode_text self "A" = Ok "0" ∧
  decode self "0" = (Ok (true, Some "A"), self) ∧
  decode self "1" = (Ok (true, Some "A"), self).
Proof. vm_compute. done. Qed.

(** After the bit '1' the cursor is on the node of weight 7; the invalid bit
    '2' raises; the bits '0', '0' then complete the symbol 'M'. *)
Example invalid_bit_scenario :
  (decode mississippi_midway "2").1 = Raise (ValueError_bad_bit "2") ∧
  (feed (decode mississippi_midway "2").2 ["0"; "0"]).1 = Ok [Some "M"].
Proof. vm_compute. done. Qed.

(** [decode_text] resets first: with the cursor inside the tree, after the
    bit '1' or after an incomplete tail, it answers as from the root. *)
Example decode_text_midway :
  decode_text mississippi_midway "100011" =
  (Ok "MIS", reset_decoder mississippi_midway).
Proof. vm_compute. done. Qed.

Example decode_text_after_tail :
  let self := (build_from_frequencies __init__ mississippi).2 in
  (decode_text self "11010110").1 = Ok "SIP" ∧
  current_node (decode_text self "11010110").2 ≠ root self ∧
  (decode_text (decode_text self "11010110").2 "0").1 = Ok "I".
Proof. vm_compute. split_and!; done. Qed.

(** Nodes of equal frequency: the order of the dictionary decides. *)
Example tie_break_order :
  encode (build_from_frequencies __init__ [("a", 1); ("b", 1)]).2 "a" = Ok "1" ∧
  encode (build_from_frequencies __init__ [("b", 1); ("a", 1)]).2 "a" = Ok "0".
Proof. vm_compute. done. Qed.

(** Keys need not be single characters: the text that [decode_text] returns
    is the symbols joined. *)
Example long_keys :
  let self := (build_from_frequencies __init__ [("ab", 1); ("c", 2)]).2 in
  incremental_decode self "01" = (Ok [Some "ab"; Some "c"], self) ∧
  decode_text self "01" = (Ok "abc", self).
Proof. vm_compute. done. Qed.

(* ================================================================== *)
(** * Further properties of the code *)

(** ** The counting loop of [build_from_text] *)

Lemma dict_set_keys (d : list (string * Z)) k v :
  (dict_set d k v).*1 = if decide (k ∈ d.*1) then d.*1 else d.*1 ++ [k].
Proof.
  induction d as [|[k' v'] d IH].
  { destruct (decide (k ∈ ([] : list (string * Z)).*1)) as [Hin|]; [|done].
    by apply elem_of_nil in Hin. }
  cbn [dict_set]. destruct (decide (k' = k)) as [->|Hne].
  - destruct (decide (k ∈ ((k, v') :: d).*1)) as [|Hnin]; [done|].
    exfalso. apply Hnin. left.
  - rewrite fmap_cons, IH. cbn [fst].
    destruct (decide (k ∈ d.*1)) as [Hin|Hnin];
      destruct (decide (k ∈ ((k', v') :: d).*1)) as [Hin'|Hnin']; try done.
    + exfalso. apply Hnin'. by right.
    + rewrite fmap_cons in Hin'. apply elem_of_cons in Hin' as [Heq|Hin']; [|done].
      simpl in Heq. congruence.
Qed.

Lemma dict_set_NoDup (d : list (string * Z)) k v :
  NoDup d.*1 → NoDup (dict_set d k v).*1.
Proof.
  intros Hnd. rewrite dict_set_keys. destruct (decide (k ∈ d.*1)); [done|].
  apply NoDup_app. split_and!; [done| |apply NoDup_singleton].
  intros x Hx ->%list_elem_of_singleton. done.
Qed.

Lemma dict_get_set (d : list (string * Z)) k v k' default :
  dict_get (dict_set d k v) k' default =
  if decide (k = k') then v else dict_get d k' default.
Proof.
  induction d as [|[k0 v0] d IH]; simpl.
  { destruct (decide (k = k')); done. }
  destruct (decide (k0 = k)) as [->|Hne]; simpl.
  - destruct (decide (k = k')); done.
  - destruct (decide (k0 = k')) as [->|Hne']; [|done].
    by rewrite decide_False by done.
Qed.

Lemma dict_get_notin (d : list (string * Z)) k default :
  k ∉ d.*1 → dict_get d k default = default.
Proof.
  induction d as [|[k0 v0] d IH]; simpl; [done|]. intros Hk.
  rewrite not_elem_of_cons in Hk. destruct Hk as [Hne Hk].
  rewrite decide_False by done. by apply IH.
Qed.

Lemma total_dict_set_incr (d : list (string * Z)) k :
  total (dict_set d k (dict_get d k 0 + 1)) = total d + 1.
Proof.
  induction d as [|[k0 v0] d IH]; simpl; [lia|].
  destruct (decide (k0 = k)); simpl; [lia|]. rewrite IH. lia.
Qed.

Lemma length_chars (s : string) : length (chars s) = String.length s.
Proof. induction s as [|a s IH]; simpl; [done|]. by rewrite IH. Qed.

Lemma chars_nil (s : string) : chars s = [] → s = "".
Proof. by destruct s. Qed.

(** The loop, started from any dictionary [d] with distinct keys. *)
Lemma count_loop_spec (l : list string) : ∀ d : list (string * Z),
  NoDup d.*1 →
  let d' := foldl (λ freq_dict char,
                     dict_set freq_dict char (dict_get freq_dict char 0 + 1)) d l in
  NoDup d'.*1 ∧
  (∀ c, c ∈ d'.*1 ↔ c ∈ d.*1 ∨ c ∈ l) ∧
  (∀ c, dict_get d' c 0 = dict_get d c 0 + occurrences c l) ∧
  total d' = total d + Z.of_nat (length l).
Proof.
  induction l as [|x l IH]; intros d Hnd; cbn [foldl].
  { split_and!; [done| |intros c; simpl; lia|simpl; lia].
    intros c. rewrite elem_of_nil. tauto. }
  destruct (IH (dict_set d x (dict_get d x 0 + 1))) as (Hnd' & Hkeys & Hget & Htot).
  { by apply dict_set_NoDup. }
  split_and!.
  - done.
  - intros c. rewrite Hkeys, dict_set_keys, elem_of_cons.
    destruct (decide (x ∈ d.*1)) as [Hx|Hx].
    + split; [tauto|]. intros [?|[->|?]]; tauto.
    + rewrite elem_of_app, list_elem_of_singleton. tauto.
  - intros c. rewrite Hget, dict_get_set. cbn [occurrences].
    destruct (decide (x = c)) as [->|Hne]; lia.
  - rewrite Htot, total_dict_set_incr. cbn [length]. lia.
Qed.

Lemma count_chars_facts (text : string) :
  NoDup (count_chars text).*1 ∧
  (∀ c, c ∈ (count_chars text).*1 ↔ c ∈ chars text) ∧
  (∀ c, dict_get (count_chars text) c 0 = occurrences c (chars text)) ∧
  total (count_chars text) = len text.
Proof.
  destruct (count_loop_spec (chars text) []) as (Hnd & Hkeys & Hget & Htot).
  { constructor. }
  unfold count_chars, len. split_and!; [done| | |].
  - intros c. rewrite (Hkeys c). simpl. rewrite elem_of_nil. tauto.
  - intros c. rewrite (Hget c). simpl. lia.
  - rewrite Htot, length_chars. simpl. lia.
Qed.

(** X2 (counting).  The dictionary that [build_from_text] counts has
    distinct keys, its keys are the characters that occur in the text, the
    count of a character is the number of its occurrences, and the counts
    add up to the length of the text. *)
Theorem count_chars_spec (text : string) :
  NoDup (count_chars text).*1 ∧
  (∀ c, c ∈ (count_chars text).*1 ↔ c ∈ chars text) ∧
  (∀ c, dict_get (count_chars text) c 0 = occurrences c (chars text)) ∧
  total (count_chars text) = len text.
Proof. apply count_chars_facts. Qed.

(** ** [build_from_text] *)

Lemma count_chars_nonempty (text : string) : text ≠ "" → count_chars text ≠ [].
Proof.
  intros Hne Hnil. destruct text as [|a text]; [done|].
  destruct (count_chars_facts (String a text)) as (_ & Hkeys & _).
  specialize (Hkeys (String a "")). rewrite Hnil in Hkeys.
  simpl in Hkeys. rewrite elem_of_nil in Hkeys. apply Hkeys. left.
Qed.

Lemma build_from_text_built self (text : string) :
  text ≠ "" →
  ∃ self' node,
    build_from_text self text = (Ok tt, self') ∧
    built_from (count_chars text) self' node ∧ current_node self' = Some node.
Proof.
  intros Hne. unfold build_from_text. rewrite decide_False by done.
  apply build_from_frequencies_built; [by apply count_chars_nonempty|].
  apply count_chars_facts.
Qed.

(** Decoding the codes of a sequence of symbols, from the root. *)
Lemma built_decode_text_encoded freq_dict self node symbols bits :
  built_from freq_dict self node → current_node self = Some node →
  encode_chars self symbols = Ok bits →
  decode_text self bits = (Ok (concat_symbols symbols), self) ∧
  incremental_decode self bits = (Ok (Some <$> symbols), self).
Proof.
  intros Hbuilt Hcur Hbits.
  assert (reset_decoder self = self) as Hreset.
  { apply set_current_node_id. by rewrite (built_root _ _ _ Hbuilt). }
  pose proof (built_decode_encoded Hbuilt symbols bits [] [] Hcur Hbits) as Hdec.
  rewrite app_nil_r in Hdec. cbn [decode_text_loop app] in Hdec.
  split.
  - unfold decode_text. rewrite Hreset, Hdec. by rewrite join_symbols.
  - unfold incremental_decode. rewrite Hreset.
    rewrite decode_text_loop_feed in Hdec.
    destruct (feed self (chars bits)) as [[collected|e] self1]; [|done].
    cbn [bind app] in Hdec. by simplify_eq.
Qed.

(** X1 ([build_from_text]).  On the empty text [build_from_text] raises the
    error of an invalid input and leaves the instance as it was.  On every
    other text it returns; the root then carries the length of the text, the
    cursor is on the root, and [encode] has a code exactly for the
    characters of the text. *)
Theorem build_from_text_spec self (text : string) :
  (text = "" →
     build_from_text self text = (Raise ValueError_empty_text, self) ∧
     kind_of ValueError_empty_text = Some InvalidInput) ∧
  (text ≠ "" →
     ∃ self' node,
       build_from_text self text = (Ok tt, self') ∧
       root self' = Some node ∧ current_node self' = Some node ∧
       Node_freq node = len text ∧
       ∀ char, (∃ code, encode self' char = Ok code) ↔ char ∈ chars text).
Proof.
  split; [by intros ->|]. intros Hne.
  destruct (build_from_text_built self text Hne) as (self' & node & Hbuild & Hbuilt & Hcur).
  destruct (count_chars_facts text) as (_ & Hkeys & _ & Htotal).
  exists self', node. split_and!; [done|apply Hbuilt|done| |].
  - rewrite (huffman_tree_freq node), (total_perm _ _ (built_leaves _ _ _ Hbuilt));
      [|apply Hbuilt].
    by rewrite total_items.
  - intros char. rewrite <-Hkeys. split.
    + intros [code Hcode]. unfold encode in Hcode.
      destruct (code_table self' !! Some char) as [c|] eqn:Hc; [|done].
      destruct (built_key Hbuilt _ _ Hc) as (char' & [= <-] & Hin). done.
    + apply (built_encode Hbuilt).
Qed.

Lemma build_from_text_spec_witness :
  "MISSISSIPPI" ≠ "" ∧
  ∃ self' node,
    build_from_text __init__ "MISSISSIPPI" = (Ok tt, self') ∧
    root self' = Some node ∧ current_node self' = Some node ∧
    Node_freq node = len "MISSISSIPPI" ∧
    ∀ char, (∃ code, encode self' char = Ok code) ↔ char ∈ chars "MISSISSIPPI".
Proof.
  assert ("MISSISSIPPI" ≠ "") as H by discriminate.
  split; [done|]. exact (proj2 (build_from_text_spec __init__ "MISSISSIPPI") H).
Defined.

(** X3 (the run of the example program).  For every non-empty text:
    [build_from_text], then [encode_text] of the same text, then the decoder
    reset and fed the encoded bits one at a time, collect the characters of
    the text, so that the joined result equals the text; [decode_text] of the
    encoded bits returns the text as well. *)
Theorem example_run self (text : string) :
  text ≠ "" →
  ∃ self' encoded,
    build_from_text self text = (Ok tt, self') ∧
    encode_text self' text = Ok encoded ∧
    incremental_decode self' encoded = (Ok (Some <$> chars text), self') ∧
    join (Some <$> chars text) = Ok text ∧
    decode_text self' encoded = (Ok text, self').
Proof.
  intros Hne.
  destruct (build_from_text_built self text Hne) as (self' & node & Hbuild & Hbuilt & Hcur).
  destruct (built_encode_chars Hbuilt (chars text)) as (encoded & Henc & _).
  { apply Forall_forall. intros c Hc. by apply count_chars_facts. }
  destruct (built_decode_text_encoded _ _ _ _ _ Hbuilt Hcur Henc) as [Hdec Hinc].
  rewrite concat_symbols_chars in Hdec.
  exists self', encoded. split_and!; [done..|apply join_chars|done].
Qed.

Lemma example_run_witness :
  "MISSISSIPPI" ≠ "" ∧
  ∃ self' encoded,
    build_from_text __init__ "MISSISSIPPI" = (Ok tt, self') ∧
    encode_text self' "MISSISSIPPI" = Ok encoded ∧
    incremental_decode self' encoded = (Ok (Some <$> chars "MISSISSIPPI"), self') ∧
    join (Some <$> chars "MISSISSIPPI") = Ok "MISSISSIPPI" ∧
    decode_text self' encoded = (Ok "MISSISSIPPI", self').
Proof.
  assert ("MISSISSIPPI" ≠ "") as H by discriminate.
  split; [done|]. exact (example_run __init__ "MISSISSIPPI" H).
Defined.

(** ** [encode] and [encode_text] *)

(** X4 ([encode] on a built tree).  After a build from a non-empty
    dictionary, also one with a single entry, [encode] returns a non-empty
    string of '0' and '1' for every key of the dictionary and raises the
    error of an unknown symbol, naming the symbol, for every other string. *)
Theorem encode_built self (freq_dict : list (string * Z)) (char : string) :
  freq_dict ≠ [] → NoDup freq_dict.*1 →
  ∃ self',
    build_from_frequencies self freq_dict = (Ok tt, self') ∧
    (char ∈ freq_dict.*1 →
       ∃ code, encode self' char = Ok code ∧ code ≠ "" ∧ bitstring code) ∧
    (char ∉ freq_dict.*1 →
       encode self' char = Raise (ValueError_unknown_char char) ∧
       kind_of (ValueError_unknown_char char) = Some UnknownSymbol).
Proof.
  intros Hne Hnd.
  destruct (build_from_frequencies_built self freq_dict Hne Hnd)
    as (self' & node & Hbuild & Hbuilt & Hcur).
  exists self'. split_and!; [done| |].
  - intros Hin. destruct (built_encode Hbuilt char Hin) as [code Hcode].
    exists code. split; [done|]. unfold encode in Hcode.
    destruct (code_table self' !! Some char) as [c|] eqn:Hc; ok_inv.
    split; [by eapply built_nonempty|by eapply built_bitstring].
  - intros Hnin. split; [|done]. unfold encode.
    destruct (code_table self' !! Some char) as [c|] eqn:Hc; [|done].
    destruct (built_key Hbuilt _ _ Hc) as (char' & [= <-] & Hin). done.
Qed.

Lemma encode_built_witness :
  mississippi ≠ [] ∧ NoDup mississippi.*1 ∧
  ∃ self',
    build_from_frequencies __init__ mississippi = (Ok tt, self') ∧
    ("X" ∈ mississippi.*1 →
       ∃ code, encode self' "X" = Ok code ∧ code ≠ "" ∧ bitstring code) ∧
    ("X" ∉ mississippi.*1 →
       encode self' "X" = Raise (ValueError_unknown_char "X") ∧
       kind_of (ValueError_unknown_char "X") = Some UnknownSymbol).
Proof.
  assert (mississippi ≠ []) as H1 by done.
  assert (NoDup mississippi.*1) as H2 by (apply (bool_decide_unpack _); vm_compute; exact I).
  split_and!; [done..|]. exact (encode_built __init__ mississippi "X" H1 H2).
Defined.

Lemma encode_chars_app self (l1 l2 : list string) :
  encode_chars self (l1 ++ l2) =
  b1 ←? encode_chars self l1; b2 ←? encode_chars self l2; Ok (b1 +:+ b2).
Proof.
  induction l1 as [|c l1 IH]; cbn [app encode_chars].
  { cbn [bind]. destruct (encode_chars self l2); done. }
  destruct (encode self c) as [code|e]; [|done]. cbn [bind]. rewrite IH.
  destruct (encode_chars self l1) as [b1|e]; [|done]. cbn [bind].
  destruct (encode_chars self l2) as [b2|e]; [|done]. cbn [bind].
  by rewrite append_assoc.
Qed.

(** X6 ([encode_text] of a concatenation).  On every instance, the encoding
    of [s1 + s2] is the encoding of [s1] followed by the encoding of [s2],
    and it raises what the first of the two raises. *)
Theorem encode_text_app self (s1 s2 : string) :
  encode_text self (s1 +:+ s2) =
  b1 ←? encode_text self s1; b2 ←? encode_text self s2; Ok (b1 +:+ b2).
Proof. unfold encode_text. rewrite chars_app. apply encode_chars_app. Qed.

(** X5 ([encode_text] stops at the first unknown character).  On every
    instance, when the characters of [s1] all have a code and the character
    [a] has none, [encode_text] of [s1], [a] and any rest raises the error of
    an unknown symbol for [a] and returns no part of the encoding; and
    [encode_text] returns exactly when every character has a code. *)
Theorem encode_text_fail_fast self (s1 s2 : string) (a : ascii) :
  Forall (λ char, is_Some (code_table self !! Some char)) (chars s1) →
  code_table self !! Some (String a "") = None →
  encode_text self (s1 +:+ String a s2) = Raise (ValueError_unknown_char (String a "")) ∧
  ∀ text, (∃ bits, encode_text self text = Ok bits) ↔
          Forall (λ char, is_Some (code_table self !! Some char)) (chars text).
Proof.
  intros Hs1 Ha.
  assert (∀ l, (∃ bits, encode_chars self l = Ok bits) ↔
               Forall (λ char, is_Some (code_table self !! Some char)) l) as Hiff.
  { induction l as [|c l IH]; cbn [encode_chars].
    { split; [constructor|by exists ""]. }
    rewrite Forall_cons, <-IH. unfold encode.
    destruct (code_table self !! Some c) as [code|]; cbn [bind].
    - destruct (encode_chars self l) as [bits|e]; cbn [bind].
      + split; [eauto|]. by eexists.
      + split; [by intros [? ?]|]. by intros [_ [? ?]].
    - split; [by intros [? ?]|]. by intros [[? ?] _]. }
  split; [|intros text; apply Hiff].
  unfold encode_text. rewrite chars_app, encode_chars_app.
  apply Hiff in Hs1 as [b1 Hb1]. rewrite Hb1. cbn [bind chars encode_chars].
  unfold encode. by rewrite Ha.
Qed.

Lemma encode_text_fail_fast_witness :
  Forall (λ char,
            is_Some (code_table (build_from_frequencies __init__ mississippi).2
                       !! Some char)) (chars "MISS") ∧
  code_table (build_from_frequencies __init__ mississippi).2 !! Some "X" = None ∧
  encode_text (build_from_frequencies __init__ mississippi).2 "MISSXSIPPI" =
    Raise (ValueError_unknown_char "X").
Proof.
  assert (Forall (λ char,
            is_Some (code_table (build_from_frequencies __init__ mississippi).2
                       !! Some char)) (chars "MISS")) as H1
    by (repeat constructor; vm_compute; eexists; reflexivity).
  assert (code_table (build_from_frequencies __init__ mississippi).2 !! Some "X" = None)
    as H2 by (vm_compute; reflexivity).
  split_and!; [done..|].
  exact (proj1 (encode_text_fail_fast
                  (build_from_frequencies __init__ mississippi).2 "MISS" "SIPPI" "X"
                  H1 H2)).
Defined.

(** X12 (no two texts share an encoding).  On a built tree, two texts that
    [encode_text] maps to the same bit string are the same text. *)
Theorem encode_text_injective self (freq_dict : list (string * Z)) (S1 S2 : string) :
  freq_dict ≠ [] → NoDup freq_dict.*1 →
  ∃ self',
    build_from_frequencies self freq_dict = (Ok tt, self') ∧
    ∀ bits, encode_text self' S1 = Ok bits → encode_text self' S2 = Ok bits → S1 = S2.
Proof.
  intros Hne Hnd.
  destruct (build_from_frequencies_built self freq_dict Hne Hnd)
    as (self' & node & Hbuild & Hbuilt & Hcur).
  exists self'. split; [done|]. intros bits H1 H2.
  destruct (built_decode_text_encoded _ _ _ _ _ Hbuilt Hcur H1) as [Hd1 _].
  destruct (built_decode_text_encoded _ _ _ _ _ Hbuilt Hcur H2) as [Hd2 _].
  rewrite Hd1, !concat_symbols_chars in Hd2. by simplify_eq.
Qed.

Lemma encode_text_injective_witness :
  mississippi ≠ [] ∧ NoDup mississippi.*1 ∧
  ∃ self',
    build_from_frequencies __init__ mississippi = (Ok tt, self') ∧
    ∀ bits, encode_text self' "MISS" = Ok bits → encode_text self' "SIP" = Ok bits →
            "MISS" = "SIP".
Proof.
  assert (mississippi ≠ []) as H1 by done.
  assert (NoDup mississippi.*1) as H2 by (apply (bool_decide_unpack _); vm_compute; exact I).
  split_and!; [done..|]. exact (encode_text_injective __init__ mississippi "MISS" "SIP" H1 H2).
Defined.

(** ** The decoder *)

Lemma reset_decoder_frame self1 self2 :
  root self1 = root self2 → code_table self1 = code_table self2 →
  reset_decoder self1 = reset_decoder self2.
Proof.
  destruct self1, self2. unfold reset_decoder, set_current_node. simpl.
  by intros -> ->.
Qed.

(** X7 (the decoder only moves the cursor).  On every instance and for every
    sequence of [decode] calls, on valid bits or not, up to the first
    exception: the tree and the code table are as before; [reset_decoder]
    then gives the instance that it gives before the calls; so [decode_text],
    which resets first, and [encode] answer as before the calls.
    [decode_text] itself leaves tree and table as they were. *)
Theorem decoder_frame self (bits : list string) (B : string) :
  root (feed self bits).2 = root self ∧
  code_table (feed self bits).2 = code_table self ∧
  reset_decoder (feed self bits).2 = reset_decoder self ∧
  decode_text (feed self bits).2 B = decode_text self B ∧
  (∀ char, encode (feed self bits).2 char = encode self char) ∧
  root (decode_text self B).2 = root self ∧
  code_table (decode_text self B).2 = code_table self.
Proof.
  destruct (feed_frame bits self) as [Hr Ht].
  assert (reset_decoder (feed self bits).2 = reset_decoder self) as Hreset
    by (by apply reset_decoder_frame).
  split_and!; [done..| | | |].
  - unfold decode_text. by rewrite Hreset.
  - intros char. unfold encode. by rewrite Ht.
  - rewrite decode_text_incremental. unfold incremental_decode.
    destruct (feed_frame (chars B) (reset_decoder self)) as [Hr' _].
    by destruct (feed (reset_decoder self) (chars B)).
  - rewrite decode_text_incremental. unfold incremental_decode.
    destruct (feed_frame (chars B) (reset_decoder self)) as [_ Ht'].
    by destruct (feed (reset_decoder self) (chars B)).
Qed.

Lemma join_symbols_app symbols (l : list (option string)) :
  join ((Some <$> symbols) ++ l) = t ←? join l; Ok (concat_symbols symbols +:+ t).
Proof.
  induction symbols as [|s symbols IH]; cbn [fmap list_fmap app join concat_symbols foldr].
  { by destruct (join l). }
  fold (Some <$> symbols). rewrite IH. destruct (join l) as [t|e]; [|done].
  cbn [bind]. by rewrite append_assoc.
Qed.

(** X9 (decoding what follows an encoded text).  On a built tree, the bits
    of any sequence of symbols of the dictionary followed by any string [B]
    decode to the symbols followed by what [B] alone decodes to; when [B]
    raises, so does the whole, and the final instance is the same. *)
Theorem decode_text_after_encoded self (freq_dict : list (string * Z))
    (symbols : list string) (B : string) :
  freq_dict ≠ [] → NoDup freq_dict.*1 →
  Forall (λ symbol, symbol ∈ freq_dict.*1) symbols →
  ∃ self' bits,
    build_from_frequencies self freq_dict = (Ok tt, self') ∧
    encode_chars self' symbols = Ok bits ∧
    decode_text self' (bits +:+ B) =
      let '(r, self'') := decode_text self' B in
      (t ←? r; Ok (concat_symbols symbols +:+ t), self'').
Proof.
  intros Hne Hnd Hsym.
  destruct (build_from_frequencies_built self freq_dict Hne Hnd)
    as (self' & node & Hbuild & Hbuilt & Hcur).
  destruct (built_encode_chars Hbuilt symbols Hsym) as (bits & Hbits & _).
  exists self', bits. split_and!; [done..|].
  assert (reset_decoder self' = self') as Hreset.
  { apply set_current_node_id. by rewrite (built_root _ _ _ Hbuilt). }
  unfold decode_text. rewrite Hreset, chars_app.
  rewrite (built_decode_encoded Hbuilt symbols bits [] _ Hcur Hbits).
  rewrite !decode_text_loop_feed.
  destruct (feed self' (chars B)) as [[collected|e] self'']; [|done].
  cbn [bind app]. by rewrite join_symbols_app.
Qed.

Lemma decode_text_after_encoded_witness :
  mississippi ≠ [] ∧ NoDup mississippi.*1 ∧
  Forall (λ symbol, symbol ∈ mississippi.*1) ["S"; "I"] ∧
  ∃ self' bits,
    build_from_frequencies __init__ mississippi = (Ok tt, self') ∧
    encode_chars self' ["S"; "I"] = Ok bits ∧
    decode_text self' (bits +:+ "1012") =
      let '(r, self'') := decode_text self' "1012" in
      (t ←? r; Ok (concat_symbols ["S"; "I"] +:+ t), self'').
Proof.
  assert (mississippi ≠ []) as H1 by done.
  assert (NoDup mississippi.*1) as H2 by (apply (bool_decide_unpack _); vm_compute; exact I).
  assert (Forall (λ symbol, symbol ∈ mississippi.*1) ["S"; "I"]) as H3
    by (apply (bool_decide_unpack _); vm_compute; exact I).
  split_and!; [done..|].
  exact (decode_text_after_encoded __init__ mississippi ["S"; "I"] "1012" H1 H2 H3).
Defined.

(** ** Code lengths *)

Lemma length_append (s1 s2 : string) :
  String.length (s1 +:+ s2) = (String.length s1 + String.length s2)%nat.
Proof.
  induction s1 as [|a s1 IH]; [done|]. rewrite append_cons. simpl. by rewrite IH.
Qed.

Lemma leaves_nonempty n : huffman_tree n → (0 < length (leaves n))%nat.
Proof.
  induction 1 as [freq char|l r _ IHl _ IHr]; [simpl; lia|].
  rewrite leaves_Node_parent, length_app. lia.
Qed.

(** A path is shorter than the number of leaves. *)
Lemma path_to_length n p k :
  huffman_tree n → path_to n p k → (String.length p < length (leaves n))%nat.
Proof.
  intros Hn. revert p. induction Hn as [freq char|l r Hl IHl Hr IHr]; intros p Hp.
  - apply path_to_leaf_inv in Hp as [-> _]. simpl. lia.
  - rewrite leaves_Node_parent, length_app.
    pose proof (leaves_nonempty l Hl). pose proof (leaves_nonempty r Hr).
    apply path_to_parent_inv in Hp as [(p' & -> & Hp)|(p' & -> & Hp)]; simpl.
    + specialize (IHl _ Hp). lia.
    + specialize (IHr _ Hp). lia.
Qed.

Lemma built_code_length freq_dict self node k code :
  built_from freq_dict self node → code_table self !! k = Some code →
  (1 ≤ String.length code ≤ Nat.max 1 (length freq_dict - 1))%nat.
Proof.
  intros Hbuilt (p & Hp & ->)%(built_lookup Hbuilt).
  pose proof (path_to_length _ _ _ (built_tree _ _ _ Hbuilt) Hp) as Hlen.
  pose proof (Permutation_length (built_leaves _ _ _ Hbuilt)) as Hl.
  unfold items in Hl. rewrite length_fmap in Hl. rewrite Hl in Hlen.
  destruct p as [|a p]; simpl in *; lia.
Qed.

Lemma built_encode_chars_length freq_dict self node :
  built_from freq_dict self node →
  ∀ symbols bits, encode_chars self symbols = Ok bits →
    (length symbols ≤ String.length bits ≤
       Nat.max 1 (length freq_dict - 1) * length symbols)%nat.
Proof.
  intros Hbuilt. induction symbols as [|c symbols IH]; intros bits Henc;
    cbn [encode_chars] in Henc.
  { ok_inv. simpl. lia. }
  unfold encode in Henc.
  destruct (code_table self !! Some c) as [code|] eqn:Hc; cbn [bind] in Henc; [|done].
  destruct (encode_chars self symbols) as [rest|] eqn:Hrest; cbn [bind] in Henc; [|done].
  ok_inv. rewrite length_append. cbn [length].
  pose proof (built_code_length _ _ _ _ _ Hbuilt Hc).
  specialize (IH rest eq_refl). lia.
Qed.

(** X10 (code lengths).  After a build from a dictionary with [n] distinct
    keys, every code has at least one bit and at most [n - 1] bits (one bit
    when [n] is one), so the encoding of a text of length [m] has between [m]
    and [max(1, n - 1) * m] bits. *)
Theorem code_length_bound self (freq_dict : list (string * Z)) :
  freq_dict ≠ [] → NoDup freq_dict.*1 →
  ∃ self',
    build_from_frequencies self freq_dict = (Ok tt, self') ∧
    (∀ k code, code_table self' !! k = Some code →
       (1 ≤ String.length code ≤ Nat.max 1 (length freq_dict - 1))%nat) ∧
    (∀ text bits, encode_text self' text = Ok bits →
       (String.length text ≤ String.length bits ≤
          Nat.max 1 (length freq_dict - 1) * String.length text)%nat).
Proof.
  intros Hne Hnd.
  destruct (build_from_frequencies_built self freq_dict Hne Hnd)
    as (self' & node & Hbuild & Hbuilt & Hcur).
  exists self'. split_and!; [done| |].
  - intros k code. by apply (built_code_length _ _ node).
  - intros text bits Henc. rewrite <-(length_chars text).
    by apply (built_encode_chars_length _ _ _ Hbuilt).
Qed.

Lemma code_length_bound_witness :
  mississippi ≠ [] ∧ NoDup mississippi.*1 ∧
  ∃ self',
    build_from_frequencies __init__ mississippi = (Ok tt, self') ∧
    (∀ k code, code_table self' !! k = Some code →
       (1 ≤ String.length code ≤ Nat.max 1 (length mississippi - 1))%nat) ∧
    (∀ text bits, encode_text self' text = Ok bits →
       (String.length text ≤ String.length bits ≤
          Nat.max 1 (length mississippi - 1) * String.length text)%nat).
Proof.
  assert (mississippi ≠ []) as H1 by done.
  assert (NoDup mississippi.*1) as H2 by (apply (bool_decide_unpack _); vm_compute; exact I).
  split_and!; [done..|]. exact (code_length_bound __init__ mississippi H1 H2).
Defined.

(** ** [_build_code_table] *)

(** X11 (rebuilding the table).  After a build from a non-empty dictionary,
    calling [_build_code_table] again leaves the instance as it is; this
    includes the dictionary with one entry, whose table the builder writes
    directly: the traversal would store the same code "0". *)
Theorem _build_code_table_built self (freq_dict : list (string * Z)) :
  freq_dict ≠ [] →
  ∃ self',
    build_from_frequencies self freq_dict = (Ok tt, self') ∧
    _build_code_table self' = self'.
Proof.
  intros Hne.
  destruct (build_from_frequencies_spec self freq_dict Hne) as (node & Hbuild & _).
  eexists. split; [exact Hbuild|]. done.
Qed.

Lemma _build_code_table_built_witness :
  only_A ≠ [] ∧
  ∃ self',
    build_from_frequencies __init__ only_A = (Ok tt, self') ∧
    _build_code_table self' = self'.
Proof.
  assert (only_A ≠ []) as H by done.
  split; [done|]. exact (_build_code_table_built __init__ only_A H).
Defined.

(** ** main.py *)

(** X13 ([build_huffman_tree] of main.py against the class).  On the empty
    dictionary the function raises [IndexError] (it has no test for it); on a
    dictionary with one entry it returns a parent whose left child is the
    leaf and whose right child is missing, where the class keeps the leaf
    itself as root; on two entries or more it returns the root that
    [build_from_frequencies] leaves in the instance.  On every non-empty
    dictionary the root carries the sum of the counts. *)
Theorem build_huffman_tree_spec self (freq_dict : list (string * Z)) :
  (freq_dict = [] → build_huffman_tree freq_dict = Raise IndexError) ∧
  (∀ ch fr, freq_dict = [(ch, fr)] →
     build_huffman_tree freq_dict = Ok (mkNode fr None (Some (Node_leaf fr ch)) None) ∧
     root (build_from_frequencies self freq_dict).2 = Some (Node_leaf fr ch)) ∧
  ((2 ≤ length freq_dict)%nat →
     ∃ node, build_huffman_tree freq_dict = Ok node ∧
             root (build_from_frequencies self freq_dict).2 = Some node) ∧
  (freq_dict ≠ [] →
     ∃ node, build_huffman_tree freq_dict = Ok node ∧
             Node_freq node = total freq_dict).
Proof.
  assert ((2 ≤ length freq_dict)%nat →
     ∃ node, build_huffman_tree freq_dict = Ok node ∧
             root (build_from_frequencies self freq_dict).2 = Some node ∧
             Node_freq node = total freq_dict) as Hmany.
  { intros Hlen.
    destruct (build_from_frequencies_spec self freq_dict) as (node & Hbuild & Htree & Hleaves).
    { intros ->. simpl in Hlen. lia. }
    exists node. rewrite Hbuild. split_and!; [|done|].
    - revert Hbuild. unfold build_from_frequencies, build_huffman_tree.
      destruct freq_dict as [|[ch fr] [|item fd]]; [simpl in Hlen; lia..|].
      set (heap := map _ _).
      destruct (heapq_facts.heapify_spec heap) as (heap1 & -> & Hp). cbn [bind].
      rewrite decide_False; [|rewrite Hp; unfold heap; simpl; lia].
      destruct (bind _ _) as [node'|e]; [|done]. by intros [= ->].
    - rewrite (huffman_tree_freq node Htree), (total_perm _ _ Hleaves).
      apply total_items. }
  split_and!.
  - by intros ->.
  - intros ch fr ->. done.
  - intros Hlen. destruct (Hmany Hlen) as (node & ? & ? & ?). by exists node.
  - intros Hne. destruct freq_dict as [|[ch fr] [|item fd]]; [done| |].
    + eexists. split; [reflexivity|]. simpl. lia.
    + destruct Hmany as (node & ? & ? & ?); [simpl; lia|]. by exists node.
Qed.

Lemma build_huffman_tree_spec_witness :
  (2 ≤ length mississippi)%nat ∧
  ∃ node, build_huffman_tree mississippi = Ok node ∧
          root (build_from_frequencies __init__ mississippi).2 = Some node.
Proof.
  assert (2 ≤ length mississippi)%nat as H by (simpl; lia).
  split; [done|].
  exact (proj1 (proj2 (proj2 (build_huffman_tree_spec __init__ mississippi))) H).
Defined.

(** ** The heap order of [heapq] *)

Lemma parent_child (pos : nat) : (0 < pos)%nat → child_of ((pos - 1) / 2) pos.
Proof.
  intros. unfold child_of.
  pose proof (Nat.div_mod_eq (pos - 1) 2).
  pose proof (Nat.mod_upper_bound (pos - 1) 2). lia.
Qed.

Lemma below_le s p : below s p → (s ≤ p)%nat.
Proof. induction 1; lia. Qed.

Lemma below_parent s i c : below s c → child_of i c → c ≠ s → below s i.
Proof.
  intros Hb [Hc|Hc] Hne; destruct Hb as [|p Hb|p Hb]; try done.
  - by replace i with p by lia.
  - lia.
  - lia.
  - by replace i with p by lia.
Qed.

Lemma below_child s i c : below s i → child_of i c → below s c.
Proof. intros Hb [->| ->]; by constructor. Qed.

Lemma below_0 p : below 0 p.
Proof.
  induction p as [p IH] using lt_wf_ind.
  destruct p as [|p]; [constructor|].
  pose proof (parent_child (S p)) as Hc.
  eapply below_child; [apply IH|apply Hc; lia].
  apply Nat.Div0.div_lt_upper_bound. lia.
Qed.

Lemma Node_lt_spec a b : Node_lt a b = true ↔ Node_freq a < Node_freq b.
Proof. unfold Node_lt. apply Z.ltb_lt. Qed.

Module heapq_order.
Import heapq.

Lemma getitem_Some heap i x : getitem heap i = Ok x → heap !! i = Some x.
Proof. unfold getitem. destruct (heap !! i); by intros [= ->]. Qed.

Lemma setitem_Some heap i x heap' :
  setitem heap i x = Ok heap' → heap' = <[i:=x]> heap ∧ (i < length heap)%nat.
Proof. unfold setitem. destruct (decide (i < length heap)%nat); by intros [= ->]. Qed.

(** The loop of [_siftdown] ends in a list that, with [newitem] placed, is
    ordered from [startpos] on. *)
Lemma _siftdown_loop_order startpos newitem fuel : ∀ heap pos heap' pos',
  _siftdown_loop fuel heap startpos pos newitem = Ok (heap', pos') →
  (pos ≤ fuel)%nat → (pos < length heap)%nat → below startpos pos →
  sift_inv startpos pos heap newitem →
  (pos' < length heap')%nat ∧ sift_inv startpos pos' heap' newitem ∧
  (∀ i x, child_of i pos' → (startpos ≤ i)%nat → heap' !! i = Some x →
            Node_freq x ≤ Node_freq newitem).
Proof.
  induction fuel as [|fuel IH]; intros heap pos heap' pos' Hloop Hfuel Hlen Hbelow Hinv;
    cbn [_siftdown_loop] in Hloop.
  { ok_inv. split_and!; [done..|]. intros i x Hc. unfold child_of in Hc. lia. }
  destruct (decide (startpos < pos)%nat) as [Hlt|Hge]; last first.
  { ok_inv. split_and!; [done..|]. intros i x Hc Hi.
    apply below_le in Hbelow. unfold child_of in Hc. lia. }
  pose proof (parent_child pos ltac:(lia)) as Hpc. cbn zeta in Hloop.
  set (pp := ((pos - 1) / 2)%nat) in *.
  destruct (getitem heap pp) as [parent|] eqn:Hparent; cbn [bind] in Hloop; [|done].
  apply getitem_Some in Hparent.
  destruct (Node_lt newitem parent) eqn:Hcmp; last first.
  { ok_inv. split_and!; [done..|]. intros i x Hc Hi Hx.
    assert (i = pp) as -> by (unfold child_of in *; lia).
    assert (¬ Node_freq newitem < Node_freq parent) as Hnlt.
    { rewrite <-Node_lt_spec. by rewrite Hcmp. }
    simplify_eq. lia. }
  apply Node_lt_spec in Hcmp.
  destruct (setitem heap pos parent) as [heap1|] eqn:Hset; cbn [bind] in Hloop; [|done].
  apply setitem_Some in Hset as [-> _].
  assert (pp ≠ pos) as Hne by (unfold child_of in Hpc; lia).
  assert (startpos ≤ pp)%nat as Hpp.
  { apply below_le, (below_parent _ _ pos); [done..|lia]. }
  apply (IH _ _ _ _ Hloop).
  - unfold child_of in Hpc. lia.
  - rewrite length_insert. unfold child_of in Hpc. lia.
  - apply (below_parent _ _ pos); [done..|lia].
  - destruct Hinv as (HI1 & HI2 & HI3). split_and!.
    + intros i c x y Hi Hc Hcp Hip Hx Hy.
      apply list_lookup_insert_Some in Hx as [(<- & <- & _)|(Hix & Hx)];
        apply list_lookup_insert_Some in Hy as [(<- & <- & _)|(Hcy & Hy)].
      * unfold child_of in Hc. lia.
      * apply (HI3 pp c); done.
      * assert (i = pp) by (unfold child_of in *; lia). done.
      * apply (HI1 i c); done.
    + intros c y Hc Hy.
      apply list_lookup_insert_Some in Hy as [(<- & <- & _)|(Hcy & Hy)]; [lia|].
      pose proof (HI1 pp c parent y Hpp Hc ltac:(done) Hne Hparent Hy). lia.
    + intros g d x y Hg Hgp Hpd Hx Hy.
      assert (g ≠ pos) as Hgpos by (unfold child_of in *; lia).
      rewrite list_lookup_insert_ne in Hx by done.
      assert (Node_freq x ≤ Node_freq parent) as Hxp.
      { by apply (HI1 g pp). }
      apply list_lookup_insert_Some in Hy as [(<- & <- & _)|(Hdy & Hy)]; [done|].
      pose proof (HI1 pp d parent y Hpp Hpd ltac:(done) Hne Hparent Hy). lia.
Qed.

Lemma sift_inv_heap_from startpos pos heap newitem :
  (pos < length heap)%nat → sift_inv startpos pos heap newitem →
  (∀ i x, child_of i pos → (startpos ≤ i)%nat → heap !! i = Some x →
            Node_freq x ≤ Node_freq newitem) →
  heap_from startpos (<[pos:=newitem]> heap).
Proof.
  intros Hlen (HI1 & HI2 & HI3) Hup i c x y Hi Hc Hx Hy.
  assert (i ≠ c) by (unfold child_of in Hc; lia).
  apply list_lookup_insert_Some in Hx as [(<- & <- & _)|(Hix & Hx)];
    apply list_lookup_insert_Some in Hy as [(<- & <- & _)|(Hcy & Hy)].
  - done.
  - by apply (HI2 c).
  - by apply (Hup i).
  - by apply (HI1 i c).
Qed.

Lemma _siftdown_order heap startpos pos newitem heap' :
  _siftdown heap startpos pos = Ok heap' →
  heap !! pos = Some newitem → below startpos pos →
  sift_inv startpos pos heap newitem →
  heap_from startpos heap'.
Proof.
  unfold _siftdown. intros Hsift Hnew Hbelow Hinv.
  assert (getitem heap pos = Ok newitem) as Hget by (unfold getitem; by rewrite Hnew).
  rewrite Hget in Hsift. cbn [bind] in Hsift.
  destruct (_siftdown_loop pos heap startpos pos newitem) as [[heap1 pos1]|] eqn:Hloop;
    cbn [bind] in Hsift; [|done].
  apply setitem_Some in Hsift as [-> _].
  apply lookup_lt_Some in Hnew.
  destruct (_siftdown_loop_order _ _ _ _ _ _ _ Hloop) as (Hlen & Hinv1 & Hup);
    [done..|].
  by apply sift_inv_heap_from.
Qed.


Lemma heap_from_weaken k k' heap : (k ≤ k')%nat → heap_from k heap → heap_from k' heap.
Proof. intros Hk Hh i c x y Hi. apply Hh. lia. Qed.

(** The loop of [_siftup] moves the hole down to a leaf and leaves the list
    ordered from [startpos] on, or untouched when it makes no round. *)
Lemma _siftup_loop_order startpos endpos fuel : ∀ heap pos heap' pos',
  _siftup_loop fuel heap endpos pos (2 * pos + 1) = Ok (heap', pos') →
  endpos = length heap → (endpos - pos ≤ fuel)%nat → (pos < endpos)%nat →
  below startpos pos →
  heap_from (startpos + 1) heap → (pos ≠ startpos → heap_from startpos heap) →
  length heap' = endpos ∧ (pos' < endpos)%nat ∧ below startpos pos' ∧
  (endpos ≤ 2 * pos' + 1)%nat ∧
  heap_from (startpos + 1) heap' ∧ (pos' ≠ startpos → heap_from startpos heap').
Proof.
  induction fuel as [|fuel IH];
    intros heap pos heap' pos' Hloop Hend Hfuel Hpos Hbelow HJ1 HJ2;
    cbn [_siftup_loop] in Hloop; [lia|].
  destruct (decide (2 * pos + 1 < endpos)%nat) as [Hlt|Hge]; last first.
  { ok_inv. split_and!; [done..|lia|done|done]. }
  cbn zeta in Hloop.
  set (childpos := (2 * pos + 1)%nat) in *.
  destruct (if decide (childpos + 1 < endpos)%nat then _ else _) as [c|] eqn:Hchoice
    in Hloop; cbn [bind] in Hloop; [|done].
  destruct (getitem heap c) as [child|] eqn:Hchild; cbn [bind] in Hloop; [|done].
  apply getitem_Some in Hchild.
  destruct (setitem heap pos child) as [heap1|] eqn:Hset; cbn [bind] in Hloop; [|done].
  apply setitem_Some in Hset as [-> _].
  (* the chosen child is not greater than the other one *)
  assert (child_of pos c ∧
          ∀ e y, child_of pos e → heap !! e = Some y →
                 Node_freq child ≤ Node_freq y) as [Hc Hleast].
  { destruct (decide (childpos + 1 < endpos)%nat) as [Hr|Hr].
    - destruct (getitem heap childpos) as [cl|] eqn:Hcl; cbn [bind] in Hchoice; [|done].
      destruct (getitem heap (childpos + 1)) as [cr|] eqn:Hcr;
        cbn [bind] in Hchoice; [|done].
      apply getitem_Some in Hcl, Hcr.
      destruct (Node_lt cl cr) eqn:Hcmp; cbn [negb] in Hchoice; ok_inv.
      + apply Node_lt_spec in Hcmp. split; [left; done|].
        intros e y [->| ->] He; fold childpos in He; [by simplify_eq|].
        replace (2 * pos + 2)%nat with (childpos + 1)%nat in He by (unfold childpos; lia).
        simplify_eq. lia.
      + assert (¬ Node_freq cl < Node_freq cr) as Hnlt.
        { rewrite <-Node_lt_spec. by rewrite Hcmp. }
        split; [right; unfold childpos; lia|].
        intros e y [->| ->] He; fold childpos in He.
        * simplify_eq. lia.
        * replace (2 * pos + 2)%nat with (childpos + 1)%nat in He
            by (unfold childpos; lia).
          by simplify_eq.
    - ok_inv. split; [left; done|].
      intros e y [->| ->] He; fold childpos in He; [by simplify_eq|].
      apply lookup_lt_Some in He. unfold childpos in Hr. lia. }
  assert (pos ≠ c) as Hpc by (unfold child_of in Hc; lia).
  assert (heap_from startpos (<[pos:=child]> heap)) as HK.
  { intros i e x y Hi He Hx Hy.
    assert (i ≠ e) by (unfold child_of in He; lia).
    apply list_lookup_insert_Some in Hx as [(Hip & Hxc & _)|(Hip & Hx)];
      apply list_lookup_insert_Some in Hy as [(Hep & Hyc & _)|(Hep & Hy)].
    - congruence.
    - subst i x. by apply (Hleast e).
    - subst e y.
      assert (pos ≠ startpos) as Hps by (unfold child_of in He; lia).
      destruct (lookup_lt_is_Some_2 heap pos) as [v Hv]; [lia|].
      pose proof (HJ2 Hps i pos x v Hi He Hx Hv).
      assert (startpos ≤ pos)%nat as Hsp by (by apply below_le).
      pose proof (HJ2 Hps pos c v child Hsp Hc Hv Hchild).
      lia.
    - destruct (decide (pos = startpos)) as [Hps|Hps].
      + apply (HJ1 i e); [lia|done..].
      + by apply (HJ2 Hps i e). }
  apply (IH _ _ _ _ Hloop).
  - by rewrite length_insert.
  - unfold child_of in Hc. lia.
  - apply lookup_lt_Some in Hchild. lia.
  - by apply (below_child _ pos).
  - apply (heap_from_weaken startpos); [lia|done].
  - done.
Qed.

Lemma _siftup_order heap pos heap' :
  _siftup heap pos = Ok heap' → heap_from (pos + 1) heap → heap_from pos heap'.
Proof.
  unfold _siftup. intros Hsift Hheap. cbn zeta in Hsift.
  destruct (getitem heap pos) as [newitem|] eqn:Hnew; cbn [bind] in Hsift; [|done].
  apply getitem_Some in Hnew. pose proof (lookup_lt_Some _ _ _ Hnew) as Hpos.
  destruct (_siftup_loop _ _ _ _ _) as [[heap1 pos1]|] eqn:Hloop in Hsift;
    cbn [bind] in Hsift; [|done].
  destruct (_siftup_loop_order pos _ _ _ _ _ _ Hloop)
    as (Hlen & Hpos1 & Hbelow & Hleaf & HJ1 & HJ2);
    [done|lia|done|constructor|done|done|].
  destruct (setitem heap1 pos1 newitem) as [heap2|] eqn:Hset;
    cbn [bind] in Hsift; [|done].
  apply setitem_Some in Hset as [-> _].
  apply (_siftdown_order _ _ _ newitem _ Hsift).
  - apply list_lookup_insert_eq. lia.
  - done.
  - split_and!.
    + intros i c x y Hi Hc Hcp Hip Hx Hy.
      rewrite list_lookup_insert_ne in Hx, Hy by done.
      destruct (decide (i = pos)) as [->|Hne].
      * apply (HJ2 ltac:(done) pos c); done.
      * apply (HJ1 i c); [lia|done..].
    + intros c y Hc Hy. apply lookup_lt_Some in Hy.
      rewrite length_insert in Hy. unfold child_of in Hc. lia.
    + intros g d x y _ _ Hd _ Hy. apply lookup_lt_Some in Hy.
      rewrite length_insert in Hy. unfold child_of in Hd. lia.
Qed.

Lemma heappush_order heap item heap' :
  heappush heap item = Ok heap' → heap_from 0 heap → heap_from 0 heap'.
Proof.
  unfold heappush. cbn zeta. rewrite length_app. cbn [length].
  replace (length heap + 1 - 1)%nat with (length heap) by lia.
  intros Hsift Hheap.
  apply (_siftdown_order _ _ _ item _ Hsift).
  - rewrite lookup_app_r by lia. by rewrite Nat.sub_diag.
  - apply below_0.
  - split_and!.
    + intros i c x y _ Hc Hcp Hip Hx Hy.
      assert (c < length heap)%nat.
      { apply lookup_lt_Some in Hy. rewrite length_app in Hy. simpl in Hy. lia. }
      rewrite lookup_app_l in Hx, Hy by (unfold child_of in Hc; lia).
      apply (Hheap i c); [lia|done..].
    + intros c y Hc Hy. apply lookup_lt_Some in Hy.
      rewrite length_app in Hy. simpl in Hy. unfold child_of in Hc. lia.
    + intros g d x y _ _ Hd _ Hy. apply lookup_lt_Some in Hy.
      rewrite length_app in Hy. simpl in Hy. unfold child_of in Hd. lia.
Qed.

(** In an ordered heap the first item has the least frequency. *)
Lemma heap_from_root_least heap r :
  heap_from 0 heap → heap !! 0%nat = Some r →
  ∀ j y, heap !! j = Some y → Node_freq r ≤ Node_freq y.
Proof.
  intros Hheap Hr j. induction j as [j IH] using lt_wf_ind. intros y Hy.
  destruct j as [|j]; [simplify_eq; lia|].
  pose proof (parent_child (S j) ltac:(lia)) as Hc.
  set (i := ((S j - 1) / 2)%nat) in *.
  assert (i < S j)%nat as Hlt by (unfold child_of in Hc; lia).
  destruct (lookup_lt_is_Some_2 heap i) as [x Hx].
  { apply lookup_lt_Some in Hy. lia. }
  pose proof (IH i Hlt x Hx). pose proof (Hheap i (S j) x y ltac:(lia) Hc Hx Hy). lia.
Qed.

Lemma heappop_order heap item heap' :
  heappop heap = Ok (item, heap') → heap_from 0 heap →
  heap_from 0 heap' ∧ Forall (λ y, Node_freq item ≤ Node_freq y) heap.
Proof.
  unfold heappop. destruct heap as [|lastelt heap _] using rev_ind; [done|].
  rewrite last_snoc, removelast_last. intros Hpop Hheap.
  destruct heap as [|returnitem heap].
  { ok_inv. split; [by intros i c x y _ _ ?|]. repeat constructor. lia. }
  rewrite heapq_facts.setitem_Ok in Hpop by (simpl; lia). cbn [bind] in Hpop.
  destruct (_siftup _ 0) as [heap1|] eqn:Hsift in Hpop; cbn [bind] in Hpop; [|done].
  ok_inv. split.
  - apply (_siftup_order _ _ _ Hsift). intros i c x y Hi Hc Hx Hy.
    assert (c ≠ 0%nat ∧ i ≠ 0%nat) as [? ?] by (unfold child_of in Hc; lia).
    rewrite list_lookup_insert_ne in Hx, Hy by done.
    apply (Hheap i c); [lia|done|by apply lookup_app_l_Some..].
  - apply Forall_lookup. intros j y Hy.
    by apply (heap_from_root_least _ _ Hheap eq_refl j).
Qed.

Lemma heapify_loop_order i : ∀ x x',
  heapify_loop i x = Ok x' → heap_from i x → heap_from 0 x'.
Proof.
  induction i as [|i IH]; intros x x' Hloop Hheap; cbn [heapify_loop] in Hloop.
  { by ok_inv. }
  destruct (_siftup x i) as [x1|] eqn:Hsift; cbn [bind] in Hloop; [|done].
  apply (IH _ _ Hloop). apply (_siftup_order _ _ _ Hsift).
  by replace (i + 1)%nat with (S i) by lia.
Qed.

Lemma heapify_order x x' : heapify x = Ok x' → heap_from 0 x'.
Proof.
  unfold heapify. cbn zeta. intros Hloop. apply (heapify_loop_order _ _ _ Hloop).
  intros i c a b Hi Hc _ Hb. apply lookup_lt_Some in Hb.
  pose proof (Nat.div_mod_eq (length x) 2).
  pose proof (Nat.mod_upper_bound (length x) 2).
  unfold child_of in Hc. lia.
Qed.

End heapq_order.

(** ** The builder follows Huffman's procedure *)

Lemma greedy_perm (l l' : list Node) node : l ≡ₚ l' → greedy l node → greedy l' node.
Proof.
  intros Hp Hg. destruct Hg as [node|a b rest pq node Hpq Ha Hb Hg].
  - apply Permutation_singleton_l in Hp. subst l'. constructor.
  - apply (greedy_merge a b rest); [|done..]. by rewrite <-Hp.
Qed.

Lemma build_loop_greedy fuel : ∀ (pq : list Node) node,
  build_loop fuel pq = Ok [node] → heap_from 0 pq → greedy pq node.
Proof.
  induction fuel as [|fuel IH]; intros pq node Hloop Hheap; cbn [build_loop] in Hloop.
  { ok_inv. constructor. }
  destruct (decide (1 < length pq)%nat) as [Hlt|]; [|ok_inv; constructor].
  destruct (heapq_facts.heappop_spec pq) as (a & pq1 & Hpop1 & Hp1).
  { intros ->. simpl in Hlt. lia. }
  rewrite Hpop1 in Hloop. cbn [bind] in Hloop.
  destruct (heapq_order.heappop_order _ _ _ Hpop1 Hheap) as [Hheap1 Hleast1].
  destruct (heapq_facts.heappop_spec pq1) as (b & pq2 & Hpop2 & Hp2).
  { intros ->. apply Permutation_length in Hp1. simpl in Hp1. lia. }
  rewrite Hpop2 in Hloop. cbn [bind] in Hloop.
  destruct (heapq_order.heappop_order _ _ _ Hpop2 Hheap1) as [Hheap2 Hleast2].
  destruct (heapq_facts.heappush_spec pq2 (Node_parent (Node_freq a + Node_freq b) a b))
    as (pq3 & Hpush & Hp3).
  rewrite Hpush in Hloop. cbn [bind] in Hloop.
  pose proof (heapq_order.heappush_order _ _ _ Hpush Hheap2) as Hheap3.
  apply (greedy_merge a b pq2).
  - by rewrite Hp1, Hp2.
  - rewrite Hp1, Hp2 in Hleast1. by apply Forall_cons in Hleast1 as [_ ?].
  - rewrite Hp2 in Hleast2. by apply Forall_cons in Hleast2 as [_ ?].
  - apply (greedy_perm pq3); [done|]. by apply IH.
Qed.

Lemma build_from_frequencies_greedy_spec self (freq_dict : list (string * Z)) :
  freq_dict ≠ [] →
  ∃ node,
    build_from_frequencies self freq_dict =
      (Ok tt, {| root := Some node;
                 code_table := traverse (Some node) "" ∅;
                 current_node := Some node |}) ∧
    huffman_tree node ∧ leaves node ≡ₚ items freq_dict ∧
    greedy (map (λ '(char, freq), Node_leaf freq char) freq_dict) node.
Proof.
  intros Hne. destruct freq_dict as [|[char freq] [|item fd]]; [done| |].
  { exists (Node_leaf freq char). split_and!; [done|constructor|done|constructor]. }
  set (freq_dict := (char, freq) :: item :: fd).
  unfold build_from_frequencies. fold freq_dict.
  set (pq := map _ freq_dict).
  destruct (heapq_facts.heapify_spec pq) as (pq1 & Hheapify & Hp1).
  rewrite Hheapify. cbn [bind].
  destruct (build_loop_spec (length pq1) pq1) as (node & Hloop & Htree & Hleaves).
  - rewrite Hp1. apply huffman_tree_of_items.
  - lia.
  - intros ->. by apply Permutation_length in Hp1.
  - rewrite Hloop. cbn [bind heapq.getitem lookup list_lookup].
    exists node. split_and!; [done..| |].
    + rewrite Hleaves, Hp1. unfold pq. by rewrite leaves_of_items.
    + apply (greedy_perm pq1); [done|].
      apply (build_loop_greedy _ _ _ Hloop).
      by apply (heapq_order.heapify_order pq).
Qed.

(** X14 (Huffman's procedure).  On every non-empty dictionary the root that
    [build_from_frequencies] leaves is obtained from the leaves of the
    dictionary by Huffman's procedure: as long as more than one tree is
    left, two trees of least frequency are replaced by their parent, the
    first taken (of frequency not greater than the second) as left child. *)
Theorem build_from_frequencies_greedy self (freq_dict : list (string * Z)) :
  freq_dict ≠ [] →
  ∃ self' node,
    build_from_frequencies self freq_dict = (Ok tt, self') ∧
    root self' = Some node ∧
    greedy (map (λ '(char, freq), Node_leaf freq char) freq_dict) node.
Proof.
  intros Hne.
  destruct (build_from_frequencies_greedy_spec self freq_dict Hne)
    as (node & Hbuild & _ & _ & Hgreedy).
  eexists _, node. split; [exact Hbuild|]. by split.
Qed.

Lemma build_from_frequencies_greedy_witness :
  mississippi ≠ [] ∧
  ∃ self' node,
    build_from_frequencies __init__ mississippi = (Ok tt, self') ∧
    root self' = Some node ∧
    greedy (map (λ '(char, freq), Node_leaf freq char) mississippi) node.
Proof.
  assert (mississippi ≠ []) as H by done.
  split; [done|]. exact (build_from_frequencies_greedy __init__ mississippi H).
Defined.

(** ** The two least frequent symbols *)

(** The paths of a subtree are the ends of paths of the tree. *)
Lemma nodes_path rt m :
  huffman_tree rt → m ∈ nodes rt →
  ∃ q, ∀ p k, path_to m p k → path_to rt (q +:+ p) k.
Proof.
  induction 1 as [freq char|l r Hl IHl Hr IHr]; intros Hm.
  - apply list_elem_of_singleton in Hm as ->. by exists "".
  - rewrite nodes_Node_parent, elem_of_cons, elem_of_app in Hm.
    destruct Hm as [->|[Hm|Hm]].
    + by exists "".
    + destruct (IHl Hm) as [q Hq]. exists (String "0"%char q). intros p k Hp.
      rewrite append_cons. eapply path_left; [done..|]. by apply Hq.
    + destruct (IHr Hm) as [q Hq]. exists (String "1"%char q). intros p k Hp.
      rewrite append_cons. eapply path_right; [done..|]. by apply Hq.
Qed.

Lemma Node_char_of_items (freq_dict : list (string * Z)) :
  Node_char <$> map (λ '(char, freq), Node_leaf freq char) freq_dict =
  Some <$> freq_dict.*1.
Proof.
  induction freq_dict as [|[c f] fd IH]; [done|]. cbn. f_equal. apply IH.
Qed.

(** X15 (the first merge).  After a build from a dictionary with two keys or
    more there are two distinct keys [ca] and [cb], the count of [ca] not
    greater than that of [cb] and the count of [cb] not greater than any
    other count, whose codes have the same length and differ in the last bit
    only: the code of [ca] ends in '0', that of [cb] in '1'. *)
Theorem least_frequent_siblings self (freq_dict : list (string * Z)) :
  NoDup freq_dict.*1 → (2 ≤ length freq_dict)%nat →
  ∃ self' ca fa cb fb q,
    build_from_frequencies self freq_dict = (Ok tt, self') ∧
    (ca, fa) ∈ freq_dict ∧ (cb, fb) ∈ freq_dict ∧ ca ≠ cb ∧ fa ≤ fb ∧
    (∀ c f, (c, f) ∈ freq_dict → c ≠ ca → c ≠ cb → fb ≤ f) ∧
    encode self' ca = Ok (q +:+ "0") ∧ encode self' cb = Ok (q +:+ "1").
Proof.
  intros Hnd Hlen.
  destruct (build_from_frequencies_greedy_spec self freq_dict)
    as (node & Hbuild & Htree & Hleaves & Hgreedy).
  { intros ->. simpl in Hlen. lia. }
  set (self' := {| root := Some node; code_table := traverse (Some node) "" ∅;
                   current_node := Some node |}) in *.
  assert (built_from freq_dict self' node) as Hbuilt by (by split).
  set (leaf := λ '(char, freq), Node_leaf freq char) in *.
  (* the first step of the procedure *)
  inversion Hgreedy as [node' Heq|a b rest pq node' Hpq Ha Hb Hrest]; subst.
  { destruct freq_dict as [|? [|? ?]]; simpl in Hlen; [lia..|done]. }
  assert (∀ n, n ∈ map leaf freq_dict → ∃ c f, n = Node_leaf f c ∧ (c, f) ∈ freq_dict)
    as Hleaf.
  { intros n (item & -> & Hitem)%list_elem_of_fmap. destruct item as [c f]. eauto. }
  destruct (Hleaf a) as (ca & fa & -> & Hina); [rewrite Hpq; left|].
  destruct (Hleaf b) as (cb & fb & -> & Hinb); [rewrite Hpq; right; left|].
  (* the two leaves hang under one parent of the tree *)
  set (parent := Node_parent (Node_freq (Node_leaf fa ca) + Node_freq (Node_leaf fb cb))
                   (Node_leaf fa ca) (Node_leaf fb cb)) in *.
  assert (∀ l n, greedy l n → ∀ m, m ∈ l → huffman_tree n → m ∈ nodes n) as Hsub.
  { clear. induction 1 as [n|a b rest pq n Hpq _ _ _ IH]; intros m Hm Hn.
    - apply list_elem_of_singleton in Hm as ->. apply nodes_self.
    - rewrite Hpq, !elem_of_cons in Hm.
      assert (Node_parent (Node_freq a + Node_freq b) a b ∈ nodes n) as Hp
        by (apply IH; [left|done]).
      destruct Hm as [->|[->|Hm]].
      + apply (nodes_child n _ a Hn Hp). by left.
      + apply (nodes_child n _ b Hn Hp). by right.
      + apply IH; [by right|done]. }
  assert (parent ∈ nodes node) as Hparent by (apply (Hsub _ _ Hrest); [left|done]).
  destruct (nodes_path node parent Htree Hparent) as [q Hq].
  assert (∀ c f, path_to (Node_leaf f c) "" (Some c)) as Hhere
    by (intros c f; apply (path_here (Node_leaf f c)); done).
  assert (path_to node (q +:+ "0") (Some ca)) as Hpa.
  { apply Hq. eapply (path_left parent); [done..|]. apply Hhere. }
  assert (path_to node (q +:+ "1") (Some cb)) as Hpb.
  { apply Hq. eapply (path_right parent); [done..|]. apply Hhere. }
  assert (∀ s, stored_code (q +:+ s) = q +:+ s ∨ s = "") as Hstored.
  { intros s. destruct s; [by right|left]. unfold stored_code.
    rewrite decide_False; [done|]. intros [_ ?]%append_eq_nil. done. }
  (* the keys differ *)
  assert (ca ≠ cb) as Hne.
  { intros ->.
    assert (NoDup (Node_char <$> map leaf freq_dict)) as Hnd'.
    { unfold leaf. rewrite Node_char_of_items. by apply (NoDup_fmap_2 _). }
    rewrite Hpq in Hnd'. simpl in Hnd'.
    apply NoDup_cons in Hnd' as [Hnin _]. apply Hnin. left. }
  exists self', ca, fa, cb, fb, q. split_and!; [done..| | | |].
  - apply Forall_cons in Ha as [Hab _]. done.
  - intros c f Hin Hca Hcb.
    assert (Node_leaf f c ∈ map leaf freq_dict) as Hn.
    { apply list_elem_of_fmap. by exists (c, f). }
    rewrite Hpq, !elem_of_cons in Hn. destruct Hn as [[=]|[[=]|Hn]]; [done..|].
    rewrite Forall_forall in Hb. by apply (Hb _ Hn).
  - unfold encode.
    assert (code_table self' !! Some ca = Some (q +:+ "0")) as ->; [|done].
    apply (built_lookup Hbuilt). exists (q +:+ "0"). split; [done|].
    by destruct (Hstored "0").
  - unfold encode.
    assert (code_table self' !! Some cb = Some (q +:+ "1")) as ->; [|done].
    apply (built_lookup Hbuilt). exists (q +:+ "1"). split; [done|].
    by destruct (Hstored "1").
Qed.

Lemma least_frequent_siblings_witness :
  NoDup mississippi.*1 ∧ (2 ≤ length mississippi)%nat ∧
  ∃ self' ca fa cb fb q,
    build_from_frequencies __init__ mississippi = (Ok tt, self') ∧
    (ca, fa) ∈ mississippi ∧ (cb, fb) ∈ mississippi ∧ ca ≠ cb ∧ fa ≤ fb ∧
    (∀ c f, (c, f) ∈ mississippi → c ≠ ca → c ≠ cb → fb ≤ f) ∧
    encode self' ca = Ok (q +:+ "0") ∧ encode self' cb = Ok (q +:+ "1").
Proof.
  assert (NoDup mississippi.*1) as H1 by (apply (bool_decide_unpack _); vm_compute; exact I).
  assert (2 ≤ length mississippi)%nat as H2 by (simpl; lia).
  split_and!; [done..|]. exact (least_frequent_siblings __init__ mississippi H1 H2).
Defined.

(** ** The size of an encoded text *)

Lemma sumZ_app {A} (h : A → Z) (l k : list A) : sumZ h (l ++ k) = sumZ h l + sumZ h k.
Proof. induction l as [|x l IH]; simpl; [done|]. rewrite IH. lia. Qed.

Lemma sumZ_ext {A} (h h' : A → Z) (l : list A) :
  (∀ x, x ∈ l → h x = h' x) → sumZ h l = sumZ h' l.
Proof.
  induction l as [|x l IH]; intros Hh; simpl; [done|].
  rewrite (Hh x), IH; [done| |left]. intros y Hy. apply Hh. by right.
Qed.

Lemma sumZ_fmap {A B} (g : A → B) (h : B → Z) (l : list A) :
  sumZ h (g <$> l) = sumZ (h ∘ g) l.
Proof. induction l as [|x l IH]; simpl; [done|]. f_equal. apply IH. Qed.

Lemma sumZ_add {A} (h h' : A → Z) (l : list A) :
  sumZ (λ x, h x + h' x) l = sumZ h l + sumZ h' l.
Proof. induction l as [|x l IH]; simpl; [done|]. rewrite IH. lia. Qed.

Lemma internal_weight_leaf freq char : internal_weight (Node_leaf freq char) = 0.
Proof. done. Qed.

Lemma internal_weight_parent freq l r :
  internal_weight (Node_parent freq l r) =
  freq + internal_weight l + internal_weight r.
Proof.
  unfold internal_weight. rewrite nodes_Node_parent. cbn [sumZ foldr].
  fold (sumZ (λ m, if Node_is_leaf m then 0 else Node_freq m) (nodes l ++ nodes r)).
  rewrite sumZ_app. simpl. lia.
Qed.

Lemma leaf_depths_parent freq l r d :
  leaf_depths (Node_parent freq l r) d = leaf_depths l (S d) ++ leaf_depths r (S d).
Proof. done. Qed.

Lemma leaf_depths_leaves n : huffman_tree n → ∀ d, (leaf_depths n d).*1 = leaves n.
Proof.
  induction 1 as [freq char|l r _ IHl _ IHr]; intros d; [done|].
  by rewrite leaf_depths_parent, leaves_Node_parent, fmap_app, IHl, IHr.
Qed.

(** Frequency times depth, summed over the leaves, is the frequency of the
    nodes that are not leaves, summed. *)
Lemma weighted_depth n :
  huffman_tree n → ∀ d,
  sumZ (λ '(_, f, e), f * Z.of_nat e) (leaf_depths n d) =
  Z.of_nat d * Node_freq n + internal_weight n.
Proof.
  induction 1 as [freq char|l r _ IHl _ IHr]; intros d.
  - simpl. rewrite internal_weight_leaf. lia.
  - rewrite leaf_depths_parent, sumZ_app, IHl, IHr, internal_weight_parent.
    cbn [Node_freq Node_parent]. lia.
Qed.

Lemma leaf_depths_path n :
  huffman_tree n → ∀ d k f e, (k, f, e) ∈ leaf_depths n d →
  ∃ p, path_to n p k ∧ e = (d + String.length p)%nat.
Proof.
  induction 1 as [freq char|l r _ IHl _ IHr]; intros d k f e Hin.
  - apply list_elem_of_singleton in Hin as [= -> -> ->]. exists "". split; [|simpl; lia].
    apply (path_here (Node_leaf freq char)). done.
  - rewrite leaf_depths_parent, elem_of_app in Hin. destruct Hin as [Hin|Hin].
    + destruct (IHl _ _ _ _ Hin) as (p & Hp & ->).
      exists (String "0"%char p). split; [by eapply path_left|simpl; lia].
    + destruct (IHr _ _ _ _ Hin) as (p & Hp & ->).
      exists (String "1"%char p). split; [by eapply path_right|simpl; lia].
Qed.

(** A sum over the symbols of a sequence, regrouped by key. *)
Lemma sumZ_regroup (g : option string → Z) (L : list (option string * Z))
    (symbols : list string) :
  NoDup L.*1 → Forall (λ s, Some s ∈ L.*1) symbols →
  sumZ (λ s, g (Some s)) symbols =
  sumZ (λ '(k, _), match k with
                   | Some c => occurrences c symbols * g k
                   | None => 0
                   end) L.
Proof.
  intros Hnd. induction 1 as [|s symbols Hs _ IH].
  { simpl. induction L as [|[[c|] f] L IHL]; simpl; [done| |].
    - apply NoDup_cons in Hnd as [_ Hnd]. rewrite <-IHL by done. lia.
    - apply NoDup_cons in Hnd as [_ Hnd]. rewrite <-IHL by done. lia. }
  cbn [sumZ foldr]. fold (sumZ (λ s, g (Some s)) symbols). rewrite IH.
  transitivity (sumZ (λ '(k, _), (if decide (k = Some s) then g k else 0) +
                        match k with
                        | Some c => occurrences c symbols * g k
                        | None => 0
                        end) L); last first.
  { apply sumZ_ext. intros [[c|] f] _; cbn [occurrences].
    - destruct (decide (Some c = Some s)) as [[= ->]|Hne].
      + rewrite decide_True by done. lia.
      + rewrite decide_False by congruence. lia.
    - by rewrite decide_False. }
  assert (sumZ (λ '(k, _), if decide (k = Some s) then g k else 0) L = g (Some s))
    as Hone.
  { clear IH. induction L as [|[k f] L IHL]; [by apply elem_of_nil in Hs|].
    rewrite fmap_cons in Hnd, Hs. apply NoDup_cons in Hnd as [Hnin Hnd].
    simpl in *. destruct (decide (k = Some s)) as [->|Hne].
    - rewrite (sumZ_ext _ (λ _, 0)).
      + clear. induction L as [|? L IH]; simpl; lia.
      + intros [k' f'] Hin. rewrite decide_False; [done|]. intros ->.
        apply Hnin. apply list_elem_of_fmap. by exists (Some s, f').
    - apply elem_of_cons in Hs as [?|Hs]; [congruence|]. rewrite IHL by done. lia. }
  rewrite <-Hone at 1. rewrite <-sumZ_add. apply sumZ_ext. by intros [k f] _.
Qed.

Lemma encode_chars_len self : ∀ symbols bits,
  encode_chars self symbols = Ok bits →
  len bits = sumZ (λ s, code_len self (Some s)) symbols.
Proof.
  induction symbols as [|c symbols IH]; intros bits Henc; cbn [encode_chars] in Henc.
  { by ok_inv. }
  unfold encode in Henc. cbn [sumZ foldr]. unfold code_len at 1.
  destruct (code_table self !! Some c) as [code|]; cbn [bind] in Henc; [|done].
  destruct (encode_chars self symbols) as [rest|]; cbn [bind] in Henc; [|done].
  ok_inv. specialize (IH rest eq_refl). unfold sumZ in IH. rewrite <-IH.
  unfold len. rewrite length_append. lia.
Qed.

(** With counts that are the numbers of occurrences in the sequence encoded,
    the encoding has as many bits as the nodes that are not leaves have
    frequency, summed. *)
Lemma built_encoded_length freq_dict self node symbols bits :
  built_from freq_dict self node → Node_is_leaf node = false →
  Forall (λ s, s ∈ freq_dict.*1) symbols →
  (∀ c f, (c, f) ∈ freq_dict → f = occurrences c symbols) →
  encode_chars self symbols = Ok bits →
  len bits = internal_weight node.
Proof.
  intros Hbuilt Hleaf Hsym Hocc Henc.
  pose proof (built_tree _ _ _ Hbuilt) as Htree.
  pose proof (built_leaves _ _ _ Hbuilt) as Hleaves.
  rewrite (encode_chars_len _ _ _ Henc).
  rewrite (sumZ_regroup _ (leaves node)).
  2: { eapply leaves_NoDup; [done|apply Hbuilt]. }
  2: { eapply Forall_impl; [exact Hsym|]. intros s Hs. simpl.
       apply (leaves_keys _ _ _ Hleaves). eauto. }
  assert (internal_weight node =
          sumZ (λ '(_, f, e), f * Z.of_nat e) (leaf_depths node 0)) as ->.
  { rewrite (weighted_depth node Htree 0). lia. }
  rewrite <-(leaf_depths_leaves node Htree 0), sumZ_fmap.
  apply sumZ_ext. intros [[k f] e] Hin. cbn [compose fst].
  destruct (leaf_depths_path node Htree _ _ _ _ Hin) as (p & Hp & ->).
  assert (k ∈ (leaves node).*1) as Hk by (by eapply path_to_leaves).
  apply (leaves_keys _ _ _ Hleaves) in Hk as (c & -> & Hc).
  assert ((c, f) ∈ freq_dict) as Hcf.
  { assert ((Some c, f) ∈ leaves node) as Hl.
    { rewrite <-(leaf_depths_leaves node Htree 0). apply list_elem_of_fmap.
      by exists (Some c, f, (0 + String.length p)%nat). }
    rewrite Hleaves in Hl. unfold items in Hl.
    apply list_elem_of_fmap in Hl as ([c' f'] & [= -> ->] & Hin'). done. }
  rewrite <-(Hocc c f Hcf). unfold code_len.
  assert (code_table self !! Some c = Some p) as ->.
  { apply (built_lookup Hbuilt). exists p. split; [done|].
    destruct p; [|done]. inversion Hp; congruence. }
  unfold len. simpl. lia.
Qed.

(** X16 (the size of the encoded text).  For a text with two different
    characters or more, after [build_from_text] the encoding of the text has
    exactly as many bits as the frequencies of the nodes that are not leaves
    add up to. *)
Theorem encoded_length self (text : string) :
  (2 ≤ length (count_chars text))%nat →
  ∃ self' node bits,
    build_from_text self text = (Ok tt, self') ∧
    root self' = Some node ∧
    encode_text self' text = Ok bits ∧
    len bits = internal_weight node.
Proof.
  intros Hlen.
  assert (text ≠ "") as Hne by (intros ->; simpl in Hlen; lia).
  destruct (build_from_text_built self text Hne) as (self' & node & Hbuild & Hbuilt & Hcur).
  destruct (count_chars_facts text) as (Hnd & Hkeys & Hget & _).
  assert (Forall (λ s, s ∈ (count_chars text).*1) (chars text)) as Hsym.
  { apply Forall_forall. intros c Hc. by apply Hkeys. }
  destruct (built_encode_chars Hbuilt (chars text) Hsym) as (bits & Henc & _).
  exists self', node, bits. split_and!; [done|apply Hbuilt|done|].
  apply (built_encoded_length _ _ _ (chars text) bits Hbuilt); [|done| |done].
  - by apply (built_root_parent Hbuilt).
  - intros c f Hin. rewrite <-Hget. clear -Hin Hnd.
    induction (count_chars text) as [|[c' f'] d IH]; [by apply elem_of_nil in Hin|].
    rewrite fmap_cons in Hnd. apply NoDup_cons in Hnd as [Hnin Hnd]. simpl.
    apply elem_of_cons in Hin as [[= <- <-]|Hin].
    + by rewrite decide_True.
    + rewrite decide_False; [by apply IH|]. intros ->. apply Hnin.
      apply list_elem_of_fmap. by exists (c, f).
Qed.

Lemma encoded_length_witness :
  (2 ≤ length (count_chars "MISSISSIPPI"))%nat ∧
  ∃ self' node bits,
    build_from_text __init__ "MISSISSIPPI" = (Ok tt, self') ∧
    root self' = Some node ∧
    encode_text self' "MISSISSIPPI" = Ok bits ∧
    len bits = internal_weight node.
Proof.
  assert (2 ≤ length (count_chars "MISSISSIPPI"))%nat as H by (vm_compute; lia).
  split; [done|]. exact (encoded_length __init__ "MISSISSIPPI" H).
Defined.

(** ** Decoding, then encoding again *)

Lemma huffman_tree_has_path n : huffman_tree n → ∃ p k, path_to n p k.
Proof.
  induction 1 as [freq char|l r _ (p & k & Hp) _ _].
  - eexists "", _. by apply (path_here (Node_leaf freq char)).
  - exists (String "0"%char p), k. by eapply path_left.
Qed.

Lemma bitstring_cons a (B : string) :
  bitstring (String a B) → (String a "" = "0" ∨ String a "" = "1") ∧ bitstring B.
Proof. unfold bitstring. simpl. by intros [? ?]%Forall_cons. Qed.

(** From a cursor reached by the bits [q], the bits of [B] complete the codes
    of the symbols collected and leave a part of a code. *)
Lemma built_parse freq_dict rt (B : string) :
  Node_is_leaf rt = false → bitstring B → ∀ self cur q,
  built_from freq_dict self rt → current_node self = Some cur →
  cur ∈ nodes rt → Node_is_leaf cur = false →
  (∀ p k, path_to cur p k → path_to rt (q +:+ p) k) →
  ∃ symbols b tail self2,
    feed self (chars B) = (Ok (Some <$> symbols), self2) ∧
    encode_chars self symbols = Ok b ∧
    q +:+ B = b +:+ tail ∧
    ∃ k r, r ≠ "" ∧ path_to rt (tail +:+ r) k.
Proof.
  intros Hrt. induction B as [|a B IH]; intros HB self cur q Hbuilt Hcur Hin Hleaf Hq.
  { pose proof (built_tree _ _ _ Hbuilt) as Htree.
    destruct (huffman_tree_leaf_or_parent cur) as [(f & c & ->)|(l & r & -> & Hl & _)];
      [by eapply nodes_huffman_tree|done|].
    destruct (huffman_tree_has_path l Hl) as (p & k & Hp).
    exists [], "", q, self. split_and!; [done|done|by rewrite append_nil_r|].
    exists k, (String "0"%char p). split; [done|].
    apply Hq. by eapply path_left. }
  apply bitstring_cons in HB as [Ha HB].
  pose proof (built_tree _ _ _ Hbuilt) as Htree.
  pose proof (built_root _ _ _ Hbuilt) as Hroot.
  destruct (huffman_tree_leaf_or_parent cur) as [(f & c & ->)|(l & r & Hcureq & Hl & Hr)];
    [by eapply nodes_huffman_tree|done|].
  (* the child that the bit selects *)
  assert (∃ next, huffman_tree next ∧ next ∈ nodes rt ∧
            (String a "" = "0" ∧ Node_left cur = Some next ∨
             String a "" = "1" ∧ Node_right cur = Some next) ∧
            ∀ p k, path_to next p k → path_to rt ((q +:+ String a "") +:+ p) k)
    as (next & Hnext & Hnin & Hsel & Hqn).
  { destruct Ha as [Ha|Ha]; [exists l|exists r]; subst cur; injection Ha as ->.
    - split_and!; [done| |by left|].
      + eapply nodes_child; [done..|]. by left.
      + intros p k Hp. rewrite append_assoc. apply Hq. by eapply path_left.
    - split_and!; [done| |by right|].
      + eapply nodes_child; [done..|]. by right.
      + intros p k Hp. rewrite append_assoc. apply Hq. by eapply path_right. }
  cbn [chars feed].
  rewrite (decode_descend self rt cur (String a "") next Hroot Hrt Hcur Hsel).
  replace (q +:+ String a B) with ((q +:+ String a "") +:+ B) by (by rewrite append_assoc).
  destruct (Node_is_leaf next) eqn:Hnl.
  - (* a symbol is complete *)
    destruct (huffman_tree_leaf_or_parent next Hnext) as [(f & c & ->)|(? & ? & -> & _)];
      [|done].
    destruct (IH HB (set_current_node self (Some rt)) rt "")
      as (symbols & b & tail & self2 & Hfeed & Henc & Heq & Htail);
      [by apply built_from_set_current_node|done|apply nodes_self|done|done|].
    rewrite Hfeed. cbn [bind Node_char Node_leaf].
    assert (code_table self !! Some c = Some (q +:+ String a "")) as Hcode.
    { apply (built_lookup Hbuilt). exists (q +:+ String a ""). split.
      - rewrite <-(append_nil_r (q +:+ String a "")). apply Hqn.
        by apply (path_here (Node_leaf f c)).
      - unfold stored_code. rewrite decide_False; [done|].
        by intros [_ ?]%append_eq_nil. }
    exists (c :: symbols), ((q +:+ String a "") +:+ b), tail, self2.
    split_and!; [done| | |done].
    + cbn [encode_chars]. unfold encode. rewrite Hcode. cbn [bind].
      rewrite (encode_chars_table self (set_current_node self (Some rt))) by done.
      by rewrite Henc.
    + rewrite append_nil_l in Heq. by rewrite Heq, !append_assoc.
  - (* the cursor moves down *)
    destruct (IH HB (set_current_node self (Some next)) next (q +:+ String a ""))
      as (symbols & b & tail & self2 & Hfeed & Henc & Heq & Htail);
      [by apply built_from_set_current_node|done..|].
    rewrite Hfeed. cbn [bind].
    exists symbols, b, tail, self2. split_and!; [done| |done|done].
    by rewrite (encode_chars_table self (set_current_node self (Some next))).
Qed.

(** X17 (encoding what was decoded).  After a build from a dictionary with
    two keys or more, every string [B] of '0' and '1' decodes, and encoding
    the decoded symbols again gives a beginning of [B]; what is left of [B]
    is a strict prefix of the code of some key: the bits of an unfinished
    symbol.  (With a single key this fails: the decoder then accepts the bit
    '1' although the only code is "0".) *)
Theorem encode_decoded self (freq_dict : list (string * Z)) (B : string) :
  NoDup freq_dict.*1 → (2 ≤ length freq_dict)%nat → bitstring B →
  ∃ self' symbols b tail self'',
    build_from_frequencies self freq_dict = (Ok tt, self') ∧
    incremental_decode self' B = (Ok (Some <$> symbols), self'') ∧
    decode_text self' B = (Ok (concat_symbols symbols), self'') ∧
    encode_chars self' symbols = Ok b ∧
    B = b +:+ tail ∧
    ∃ k r, r ≠ "" ∧ code_table self' !! k = Some (tail +:+ r).
Proof.
  intros Hnd Hlen HB.
  destruct (build_from_frequencies_built self freq_dict) as
    (self' & node & Hbuild & Hbuilt & Hcur); [intros ->; simpl in Hlen; lia|done|].
  pose proof (built_root_parent Hbuilt Hlen) as Hleaf.
  assert (reset_decoder self' = self') as Hreset.
  { apply set_current_node_id. by rewrite (built_root _ _ _ Hbuilt). }
  destruct (built_parse freq_dict node B Hleaf HB self' node "")
    as (symbols & b & tail & self'' & Hfeed & Henc & Heq & k & r & Hr & Hpath);
    [done|done|apply nodes_self|done|done|].
  exists self', symbols, b, tail, self''. split_and!; [done| | |done|done|].
  - unfold incremental_decode. by rewrite Hreset.
  - rewrite decode_text_incremental. unfold incremental_decode.
    rewrite Hreset, Hfeed. cbn [bind]. by rewrite join_symbols.
  - exists k, r. split; [done|]. apply (built_lookup Hbuilt).
    exists (tail +:+ r). split; [done|]. unfold stored_code.
    rewrite decide_False; [done|]. by intros [_ ?]%append_eq_nil.
Qed.

Lemma encode_decoded_witness :
  NoDup mississippi.*1 ∧ (2 ≤ length mississippi)%nat ∧ bitstring "10001110" ∧
  ∃ self' symbols b tail self'',
    build_from_frequencies __init__ mississippi = (Ok tt, self') ∧
    incremental_decode self' "10001110" = (Ok (Some <$> symbols), self'') ∧
    decode_text self' "10001110" = (Ok (concat_symbols symbols), self'') ∧
    encode_chars self' symbols = Ok b ∧
    "10001110" = b +:+ tail ∧
    ∃ k r, r ≠ "" ∧ code_table self' !! k = Some (tail +:+ r).
Proof.
  assert (NoDup mississippi.*1) as H1 by (apply (bool_decide_unpack _); vm_compute; exact I).
  assert (2 ≤ length mississippi)%nat as H2 by (simpl; lia).
  assert (bitstring "10001110") as H3 by (apply (bool_decide_unpack _); vm_compute; exact I).
  split_and!; [done..|]. exact (encode_decoded __init__ mississippi "10001110" H1 H2 H3).
Defined.

(** With a single key the decoder accepts bits that no encoding produces. *)
Example single_key_accepts_any_bit :
  let self := (build_from_frequencies __init__ only_A).2 in
  decode_text self "1" = (Ok "A", self) ∧ encode_text self "A" = Ok "0".
Proof. vm_compute. done. Qed.
